(** * plot_spm_folder: batch rendering of AFM scan channels

    A shallow embedding of [plot_spm_folder.py].  The script lists the
    [.gwy] files of the working directory, loads the data channels of each
    one, and for every channel named in the [params] table scales the
    samples, draws them with a colorbar and a scale bar, and saves a PNG.

    Modelling choices.
    - Samples, physical sizes and scale factors are binary64 numbers, the
      primitive [float] of the kernel: products and differences round,
      overflow to an infinity and propagate NaN as numpy's do.  General
      facts about them rest on the specification of the primitives
      ([FloatAxioms]); that rounding keeps the order is derived from it by
      reading every number as an integer multiple of [2 ^ -1074].
    - The layout arguments handed to matplotlib (positions, paddings,
      fractions) are never computed with by the script; they are kept as
      the decimal literals of the source, in [Q].
    - A 2-D [numpy.ndarray] is a list of rows.
    - The script's effects (console, file system, pyplot's figure
      registry) are explicit state; the things the script reads (directory
      listing, file contents, failures of the file system) form a read-only
      environment.
    - Paths follow [posixpath]. *)

From Stdlib Require Import QArith ZArith Lia String Ascii List Floats.
From stdpp Require Import base option list strings gmap.

Open Scope Q_scope.
Set Warnings "-inexact-float".

(** ** Python values used by the script *)

(** An exception that derives from [Exception]: its class name and [str(e)]. *)
Record exn := Exn { exn_type : string; exn_str : string }.

Inductive result (A : Type) : Type :=
| Ok (a : A)
| Raise (e : exn).
Arguments Ok {A} a.
Arguments Raise {A} e.

(** ** numpy *)

Module Np.

Definition ndarray : Type := list (list float).

Definition ravel (a : ndarray) : list float := concat a.

(** [a * s] and [a - m] with a scalar on the right: elementwise. *)
Definition mul_scalar (a : ndarray) (s : float) : ndarray :=
  map (map (fun x => (x * s)%float)) a.

Definition sub_scalar (a : ndarray) (m : float) : ndarray :=
  map (map (fun x => (x - m)%float)) a.

(** [np.minimum] and [np.maximum] on two numbers: the first when the
    comparison holds or when it is NaN, else the second, so that a NaN on
    either side is the result. *)
Definition minimum (a b : float) : float :=
  if (a <=? b)%float || is_nan a then a else b.

Definition maximum (a b : float) : float :=
  if (b <=? a)%float || is_nan a then a else b.

(** A reduction over all elements; [None] stands for the [ValueError]
    numpy raises on a zero-size array. *)
Definition reduce (op : float -> float -> float) (l : list float) : option float :=
  match l with
  | [] => None
  | x :: l' => Some (fold_left op l' x)
  end.

Definition min (a : ndarray) : option float := reduce minimum (ravel a).
Definition max (a : ndarray) : option float := reduce maximum (ravel a).

Definition zero_size (op : string) : exn :=
  Exn "ValueError"
      ("zero-size array to reduction operation " +:+ op +:+
       " which has no identity").

End Np.

(** ** str and os.path *)

Module Py.

Definition chars : string -> list ascii := list_ascii_of_string.
Definition str : list ascii -> string := string_of_list_ascii.

(** [s.endswith(suffix)] *)
Definition endswith (s suffix : string) : bool :=
  let l := chars s in
  let t := chars suffix in
  (length t <=? length l)%nat &&
  bool_decide (drop (length l - length t) l = t).

(** [s.startswith(c)] for a one-character [c]. *)
Definition startswith_char (s : string) (c : ascii) : bool :=
  match s with
  | String x _ => Ascii.eqb x c
  | EmptyString => false
  end.

(** [s.rfind(c)] for a one-character [c]: the highest index, or -1. *)
Fixpoint rfind_from (i : Z) (l : list ascii) (c : ascii) (found : Z) : Z :=
  match l with
  | [] => found
  | x :: l' => rfind_from (i + 1) l' c (if Ascii.eqb x c then i else found)
  end.

Definition rfind (s : string) (c : ascii) : Z :=
  rfind_from 0 (chars s) c (-1).

Definition is_dot (c : ascii) : bool := Ascii.eqb c ".".

(** [p[lo:hi]] for [0 <= lo], [0 <= hi]. *)
Definition slice (lo hi : Z) (l : list ascii) : list ascii :=
  drop (Z.to_nat lo) (take (Z.to_nat hi) l).

(** [posixpath.splitext]: the extension starts at the last dot of the last
    path component, unless only dots precede it in that component. *)
Definition splitext (p : string) : string * string :=
  let sepIndex := rfind p "/" in
  let dotIndex := rfind p "." in
  if (sepIndex <? dotIndex)%Z then
    if forallb is_dot (slice (sepIndex + 1) dotIndex (chars p))
    then (p, EmptyString)
    else (str (take (Z.to_nat dotIndex) (chars p)),
          str (drop (Z.to_nat dotIndex) (chars p)))
  else (p, EmptyString).

(** [posixpath.join(a, b)] *)
Definition path_join (a b : string) : string :=
  if startswith_char b "/" then b
  else if String.eqb a "" || endswith a "/" then a +:+ b
  else a +:+ "/" +:+ b.

End Py.

(** ** gwyfile *)

(** A [GwyDataField]: the sample grid and its physical width and height. *)
Record channel := Channel {
  data : Np.ndarray;
  xreal : float;
  yreal : float
}.

(** ** The configuration table [params] *)

Record channel_params := ChannelParams {
  cmap : string;
  datascale : float;
  label : string
}.

Definition params : gmap string channel_params :=
  <[ "ZSensor" := ChannelParams "afmhot" 1e9 "Height [nm]" ]>
  (<[ "Peak Force Error" := ChannelParams "gray" 1e3 "Peak Force [mV]" ]>
  (<[ "Potential" := ChannelParams "inferno" 1 "Potential [V]" ]> ∅)).

(** ** matplotlib *)

(** Text drawn on a figure: a literal, or a number under a [.{p}g] format
    specification ([p] significant figures). *)
Inductive content :=
| Literal (s : string)
| FormatG (precision : nat) (x : float).

Record text := Text {
  text_x : Q;
  text_y : Q;
  text_s : content;
  text_rotation : Q
}.

(** The image drawn by [ax.imshow]. *)
Record axes_image := AxesImage {
  im_data : Np.ndarray;
  im_interpolation : string;
  im_origin : string;
  im_extent : float * float * float * float;
  im_cmap : string
}.

Record colorbar := Colorbar {
  cb_shrink : Q;
  cb_aspect : Q;
  cb_pad : Q;
  cb_axis_on : bool;
  cb_texts : list text
}.

(** A [matplotlib_scalebar.ScaleBar] and its constructor arguments. *)
Record scalebar := ScaleBar {
  sb_dx : Q;
  sb_units : string;
  sb_length_fraction : Q;
  sb_location : string;
  sb_scale_loc : string;
  sb_frameon : bool;
  sb_border_pad : Q;
  sb_width_fraction : Q;
  sb_color : string
}.

(** A figure with its single axes.  [fig_num] is the number pyplot gave
    it. *)
Record figure := Figure {
  fig_num : nat;
  fig_layout : string;
  ax_axis_on : bool;
  ax_images : list axes_image;
  fig_colorbars : list colorbar;
  ax_artists : list scalebar
}.

(** ** Effects *)

(** What the script does to the outside world, in order. *)
Inductive event :=
| Printed (line : string)
| MadeDirs (path : string)
| SavedFig (path : string) (fig : figure) (dpi : nat) (bbox_inches : string).

(** The state threaded through the script: the events so far (oldest
    first) and the numbers of the figures pyplot keeps open. *)
Record state := State {
  trace : list event;
  open_figs : list nat
}.

Definition init : state := State [] [].

(** What the script reads: the working directory, its listing, what
    [gwy.util.get_datafields(gwy.load(file))] gives for a file name (a
    dict in insertion order, or the exception raised), and the error, if
    any, with which the file system refuses to create a directory or to
    write an image at a path. *)
Record env := Env {
  getcwd : string;
  listdir : list string;
  get_datafields_load : string -> result (list (string * channel));
  makedirs_error : string -> option exn;
  savefig_error : string -> option exn
}.

(** A computation that reads and updates the state and may raise. *)
Definition M (A : Type) : Type := state -> result A * state.

Definition ret {A} (a : A) : M A := fun st => (Ok a, st).

Definition bind {A B} (c : M A) (k : A -> M B) : M B :=
  fun st =>
    match c st with
    | (Ok a, st') => k a st'
    | (Raise e, st') => (Raise e, st')
    end.

Definition raise {A} (e : exn) : M A := fun st => (Raise e, st).

Definition lift {A} (r : result A) : M A := fun st => (r, st).

Definition emit (ev : event) : M unit :=
  fun st => (Ok tt, State (trace st ++ [ev]) (open_figs st)).

Declare Scope monad_scope.
Delimit Scope monad_scope with monad.
Notation "x <- c ;; k" := (bind c (fun x => k))
  (at level 100, c at next level, right associativity) : monad_scope.
Notation "c ;;; k" := (bind c (fun _ => k))
  (at level 100, right associativity) : monad_scope.
Open Scope monad_scope.

(** A [for] loop whose body neither breaks nor returns a value. *)
Fixpoint for_each {A} (l : list A) (body : A -> M unit) : M unit :=
  match l with
  | [] => ret tt
  | x :: l' => body x ;;; for_each l' body
  end.

Definition print (line : string) : M unit := emit (Printed line).

(** [os.makedirs(path, exist_ok=True)] *)
Definition makedirs (e : env) (path : string) : M unit :=
  match makedirs_error e path with
  | Some err => raise err
  | None => emit (MadeDirs path)
  end.

(** [plt.subplots(layout=...)]: pyplot numbers the new figure one above
    the highest open number (1 when none is open) and keeps it open. *)
Definition next_num (open : list nat) : nat := S (fold_right Nat.max 0%nat open).

Definition subplots (layout : string) : M figure :=
  fun st =>
    let n := next_num (open_figs st) in
    (Ok (Figure n layout true [] [] []),
     State (trace st) (open_figs st ++ [n])).

(** [ax.imshow(...)] *)
Definition imshow (fig : figure) (im : axes_image) : figure :=
  Figure (fig_num fig) (fig_layout fig) (ax_axis_on fig)
         (ax_images fig ++ [im]) (fig_colorbars fig) (ax_artists fig).

(** [ax.axis('off')] *)
Definition axis_off (fig : figure) : figure :=
  Figure (fig_num fig) (fig_layout fig) false
         (ax_images fig) (fig_colorbars fig) (ax_artists fig).

Definition with_colorbar (fig : figure) (cb : colorbar) : figure :=
  Figure (fig_num fig) (fig_layout fig) (ax_axis_on fig)
         (ax_images fig) (fig_colorbars fig ++ [cb]) (ax_artists fig).

(** [ax.add_artist(scalebar)] *)
Definition add_artist (fig : figure) (sb : scalebar) : figure :=
  Figure (fig_num fig) (fig_layout fig) (ax_axis_on fig)
         (ax_images fig) (fig_colorbars fig) (ax_artists fig ++ [sb]).

(** [fig.savefig(path, dpi=..., bbox_inches=...)] *)
Definition savefig (e : env) (fig : figure) (path : string) (dpi : nat)
    (bbox_inches : string) : M unit :=
  match savefig_error e path with
  | Some err => raise err
  | None => emit (SavedFig path fig dpi bbox_inches)
  end.

(** ** The script *)

(** [add_cbar(im, ax, data, label)] *)
Definition add_cbar (fig : figure) (d : Np.ndarray) (lbl : string) : result figure :=
  let sep := 0.07 in
  match Np.min d with
  | None => Raise (Np.zero_size "minimum")
  | Some lo =>
    match Np.max d with
    | None => Raise (Np.zero_size "maximum")
    | Some hi =>
      Ok (with_colorbar fig
            (Colorbar 0.5 12 0.03 false
               [ Text 0.5 (0 - sep) (FormatG 3 lo) 0;
                 Text 0.5 (1 + sep) (FormatG 3 hi) 0;
                 Text 2.25 0.5 (Literal lbl) (-90) ]))
    end
  end.

(** [add_scalebar(ax)] *)
Definition add_scalebar (fig : figure) : figure :=
  add_artist fig (ScaleBar 1 "m" 0.3 "lower left" "top" false 1.5 0.012 "white").

(** Lines 117-122: scale the samples, and for the height channel set the
    lowest value to zero. *)
Definition scale_data (key : string) (p : channel_params) (ch : channel)
    : result Np.ndarray :=
  let d := Np.mul_scalar (data ch) (datascale p) in
  if String.eqb key "ZSensor" then
    match Np.min d with
    | None => Raise (Np.zero_size "minimum")
    | Some m => Ok (Np.sub_scalar d m)
    end
  else Ok d.

(** [f"{os.path.splitext(file)[0]}.{key}.png"] under the output folder. *)
Definition output_name (file key : string) : string :=
  fst (Py.splitext file) +:+ "." +:+ key +:+ ".png".

Definition output_path (output_folder file key : string) : string :=
  Py.path_join output_folder (output_name file key).

(** The body of the loop over the channels of one file. *)
Definition process_channel (e : env) (output_folder file : string)
    (item : string * channel) : M unit :=
  let (key, ch) := item in
  match params !! key with
  | None => ret tt
  | Some p =>
    d <- lift (scale_data key p ch) ;;
    fig <- subplots "constrained" ;;
    let fig := imshow fig (AxesImage d "none" "upper"
                             (0%float, xreal ch, 0%float, yreal ch) (cmap p)) in
    let fig := axis_off fig in
    fig <- lift (add_cbar fig d (label p)) ;;
    let fig := add_scalebar fig in
    savefig e fig (output_path output_folder file key) 300 "tight"
  end.

(** [f"Error loading {file}: {e}"] *)
Definition load_error_line (file : string) (err : exn) : string :=
  "Error loading " +:+ file +:+ ": " +:+ exn_str err.

(** The body of the loop over the files. *)
Definition process_file (e : env) (output_folder file : string) : M unit :=
  match get_datafields_load e file with
  | Raise err => print (load_error_line file err)
  | Ok channels => for_each channels (process_channel e output_folder file)
  end.

(** The names of the working directory that end in '.gwy'. *)
Definition gwy_files (e : env) : list string :=
  List.filter (fun f => Py.endswith f ".gwy") (listdir e).

Definition process_gwy_files (e : env) : M unit :=
  let files := gwy_files e in
  match files with
  | [] => print "No .gwy files found in the folder."
  | _ =>
    let output_folder := Py.path_join (getcwd e) "processed_images" in
    makedirs e output_folder ;;;
    for_each files (process_file e output_folder)
  end.

(** The exit status of [python plot_spm_folder.py]: 0 on a normal return,
    1 when an exception reaches the top level. *)
Definition exit_code {A} (r : result A) : Z :=
  match r with
  | Ok _ => 0%Z
  | Raise _ => 1%Z
  end.

(** ** Readings of a trace *)

Definition saved_path (ev : event) : option string :=
  match ev with
  | SavedFig path _ _ _ => Some path
  | _ => None
  end.

Definition saved_fig (ev : event) : option figure :=
  match ev with
  | SavedFig _ fig _ _ => Some fig
  | _ => None
  end.

Definition printed_line (ev : event) : option string :=
  match ev with
  | Printed line => Some line
  | _ => None
  end.

Definition made_dir (ev : event) : option string :=
  match ev with
  | MadeDirs path => Some path
  | _ => None
  end.

(** The paths written, the figures saved, the lines printed and the
    directories created, each in order. *)
Definition saved_paths (t : list event) : list string := omap saved_path t.
Definition saved_figs (t : list event) : list figure := omap saved_fig t.
Definition printed (t : list event) : list string := omap printed_line t.
Definition made_dirs (t : list event) : list string := omap made_dir t.

(** ** Readings of a computation *)

(** [c] does not read the trace and only appends to it: run from a state
    with trace [t], it does what it does from the empty trace, with [t] in
    front of the events. *)
Definition framed {A} (c : M A) : Prop :=
  forall t o,
    c (State t o) =
    (fst (c (State [] o)),
     State (t ++ trace (snd (c (State [] o)))) (open_figs (snd (c (State [] o))))).

(** The figure as it stands when it is saved: number [n], the image of
    the samples [d], the colorbar with the lowest and highest sample [lo]
    and [hi], and the scale bar. *)
Definition drawn (n : nat) (p : channel_params) (ch : channel)
    (d : Np.ndarray) (lo hi : float) : figure :=
  Figure n "constrained" false
    [AxesImage d "none" "upper" (0%float, xreal ch, 0%float, yreal ch) (cmap p)]
    [Colorbar 0.5 12 0.03 false
       [ Text 0.5 (0 - 0.07) (FormatG 3 lo) 0;
         Text 0.5 (1 + 0.07) (FormatG 3 hi) 0;
         Text 2.25 0.5 (Literal (label p)) (-90) ]]
    [ScaleBar 1 "m" 0.3 "lower left" "top" false 1.5 0.012 "white"].

(** ** Example inputs *)

Definition height_map : channel :=
  Channel [[3e-9; 1e-9]; [2e-9; 5e-9]]%float 1e-6 2e-6.

Definition force_map : channel :=
  Channel [[-0.002; 0.004]; [0.001; 0.003]]%float 1e-6 2e-6.

Definition truncated_file : exn := Exn "GwyfileError" "unexpected end of file".

Definition disk_full : exn := Exn "OSError" "[Errno 28] No space left on device".

(** A folder with a corrupt scan, a text file and a scan with a phase, a
    height and a force channel. *)
Definition scans_env : env :=
  Env "/home/u/scans" ["bad.gwy"; "notes.txt"; "good.gwy"]
      (fun f => if String.eqb f "good.gwy"
                then Ok [("Phase", force_map); ("ZSensor", height_map);
                         ("Peak Force Error", force_map)]
                else Raise truncated_file)
      (fun _ => None) (fun _ => None).

(** A folder with one scan that cannot be parsed and one scan with a
    height channel. *)
Definition two_scans_env : env :=
  Env "/home/u/two" ["broken.gwy"; "sample.gwy"]
      (fun f => if String.eqb f "sample.gwy"
                then Ok [("ZSensor", height_map)]
                else Raise truncated_file)
      (fun _ => None) (fun _ => None).

(** A folder without scan files. *)
Definition empty_env : env :=
  Env "/home/u/empty" ["notes.txt"; "scan.gwy.bak"]
      (fun _ => Raise truncated_file) (fun _ => None) (fun _ => None).

(** A folder with two scans where the disk fills up while the second
    image of the first scan is written. *)
Definition full_disk_env : env :=
  Env "/home/u/scans" ["first.gwy"; "second.gwy"]
      (fun _ => Ok [("ZSensor", height_map); ("Potential", force_map);
                    ("Peak Force Error", force_map)])
      (fun _ => None)
      (fun path =>
         if String.eqb path "/home/u/scans/processed_images/first.Potential.png"
         then Some disk_full else None).

(** ** The pairs a run renders *)

(** The channels of a dict that the loop does not skip. *)
Definition recognized (chs : list (string * channel)) : list (string * channel) :=
  List.filter
    (fun kc => match params !! fst kc with Some _ => true | None => false end)
    chs.

(** The dict loaded from a file; a file that fails to load has none. *)
Definition channels_of (e : env) (file : string) : list (string * channel) :=
  match get_datafields_load e file with
  | Ok chs => chs
  | Raise _ => []
  end.

(** The (file, channel name) pairs of a run, in the order of the loops. *)
Definition recognized_pairs (e : env) : list (string * string) :=
  flat_map
    (fun file => map (fun kc => (file, fst kc)) (recognized (channels_of e file)))
    (gwy_files e).

(** ** Readings of the saved figures *)

(** The pyplot numbers of the figures saved, in order. *)
Definition saved_nums (t : list event) : list nat := map fig_num (saved_figs t).

(** Every figure that was saved has since been closed. *)
Definition figures_released (st : state) : Prop :=
  forall fig, In fig (saved_figs (trace st)) -> ~ In (fig_num fig) (open_figs st).

(** A figure with one image, one colorbar whose first two texts are the
    lowest and the highest sample of that image under the format [.3g],
    and one scale bar of length fraction 0.3 in the lower left corner,
    without frame. *)
Definition annotated (fig : figure) : Prop :=
  exists im lo hi lbl cb sb,
    ax_images fig = [im] /\
    Np.min (im_data im) = Some lo /\
    Np.max (im_data im) = Some hi /\
    fig_colorbars fig = [cb] /\
    cb_texts cb = [ Text 0.5 (0 - 0.07) (FormatG 3 lo) 0;
                    Text 0.5 (1 + 0.07) (FormatG 3 hi) 0;
                    Text 2.25 0.5 (Literal lbl) (-90) ] /\
    ax_artists fig = [sb] /\
    sb_length_fraction sb = 0.3 /\
    sb_location sb = "lower left" /\
    sb_frameon sb = false.

(** The figures pyplot holds are numbered 1 to [n] and the saved ones
    appear among them in order. *)
Definition figs_inv (st : state) : Prop :=
  exists n, open_figs st = seq 1 n /\ saved_nums (trace st) `sublist_of` seq 1 n.

(** ** Readings of file names *)

(** The name has only dots before its final four characters: for a name
    that ends in '.gwy', [splitext] then finds no extension. *)
Definition hidden_gwy (f : string) : bool :=
  let l := Py.chars f in
  forallb Py.is_dot (take (length l - 4) l).

(** Different pairs of a file among [files] and a channel name of [params]
    are saved under different paths. *)
Definition no_collisions (folder : string) (files : list string) : Prop :=
  forall f1 k1 f2 k2,
    In f1 files -> In f2 files ->
    is_Some (params !! k1) -> is_Some (params !! k2) ->
    (f1, k1) <> (f2, k2) ->
    output_path folder f1 k1 <> output_path folder f2 k2.

(** A folder with two hidden scans. *)
Definition hidden_env : env :=
  Env "/home/u/scans" [".gwy"; ".gwy.gwy"]
      (fun _ => Ok [("ZSensor", height_map)])
      (fun _ => None) (fun _ => None).

(** ** Readings of a run *)

(** The event is the image of the channel [item] of [file]: the array that
    [scale_data] returns for it, drawn with the colormap and label of its
    entry of [params], saved under the path of the pair. *)
Definition channel_event (folder file : string) (item : string * channel)
    (ev : event) : Prop :=
  exists p d lo hi n,
    params !! fst item = Some p /\
    scale_data (fst item) p (snd item) = Ok d /\
    Np.min d = Some lo /\ Np.max d = Some hi /\
    ev = SavedFig (output_path folder file (fst item))
                  (drawn n p (snd item) d lo hi) 300 "tight".

(** The event comes from [file]: the line for its load error, or the image
    of one of its channels. *)
Definition file_event (e : env) (folder file : string) (ev : event) : Prop :=
  (exists err,
     get_datafields_load e file = Raise err /\
     ev = Printed (load_error_line file err)) \/
  (exists chs item,
     get_datafields_load e file = Ok chs /\ In item chs /\
     channel_event folder file item ev).

(** The file loads. *)
Definition loads (e : env) (file : string) : bool :=
  match get_datafields_load e file with
  | Ok _ => true
  | Raise _ => false
  end.

(** The lines for the files that fail to load, in order. *)
Definition load_error_lines (e : env) (files : list string) : list string :=
  flat_map
    (fun file =>
       match get_datafields_load e file with
       | Raise err => [load_error_line file err]
       | Ok _ => []
       end)
    files.

(** The events other than printed lines. *)
Definition unprinted (t : list event) : list event :=
  List.filter (fun ev => match ev with Printed _ => false | _ => true end) t.

(** A folder where the output directory cannot be created. *)
Definition read_only_env : env :=
  Env "/media/cdrom" ["scan.gwy"]
      (fun _ => Ok [("ZSensor", height_map)])
      (fun _ => Some (Exn "PermissionError" "[Errno 13] Permission denied"))
      (fun _ => None).

(** ** Readings of binary64 numbers *)

(** No sample is NaN. *)
Definition no_nan (l : list float) : Prop := Forall (fun x => is_nan x = false) l.

(** The sign of a rounded number. *)
Definition signed (sx : bool) (r : spec_float) : Prop :=
  match r with
  | S754_zero s | S754_infinity s | S754_finite s _ _ => s = sx
  | S754_nan => False
  end.

(** Zero of either sign, or above zero. *)
Definition SFnonneg (r : spec_float) : Prop :=
  match r with
  | S754_zero _ | S754_infinity false | S754_finite false _ _ => True
  | _ => False
  end.

(** A valid number that is zero or finite. *)
Definition SFfinite (x : spec_float) : Prop :=
  match x with
  | S754_zero _ => True
  | S754_finite _ m e => bounded prec emax m e = true
  | _ => False
  end.

(** ** Binary64 numbers as integers *)

Section Values.
Local Open Scope Z_scope.

(** [V] rounded to the nearest multiple of [g], a tie going to the even
    multiple. *)
Definition rne (V g : Z) : Z :=
  let q := V / g in
  let r := V mod g in
  if 2 * r <? g then q * g
  else if g <? 2 * r then (q + 1) * g
  else if Z.even q then q * g else (q + 1) * g.

(** The exponent of the grid on which a value [W], counted in units of
    [2 ^ -(1074 + K)], is rounded to 53 bits: the one of its binade, and
    [K] for the subnormal numbers. *)
Definition gexp (K W : Z) : Z := Z.max (Z.log2 W + 1 - 53) K.

(** [W] rounded to 53 bits. *)
Definition round (K W : Z) : Z := rne W (2 ^ gexp K W).

(** The overflow threshold [2 ^ 1024], in units of [2 ^ -1074]. *)
Definition Top : Z := 2 ^ 2098.

(** The magnitude of a number, in units of [2 ^ -1074]. *)
Definition absval (r : spec_float) : Z :=
  match r with
  | S754_zero _ | S754_nan => 0
  | S754_infinity _ => Top
  | S754_finite _ m e => Zpos m * 2 ^ (e + 1074)
  end.

(** The value of a number, in units of [2 ^ -1074]; the infinities stand
    at the overflow threshold. *)
Definition val (r : spec_float) : Z :=
  match r with
  | S754_zero _ | S754_nan => 0
  | S754_infinity s => cond_Zopp s Top
  | S754_finite s m e => cond_Zopp s (Zpos m * 2 ^ (e + 1074))
  end.

(** Rounding of a signed value, with overflow to infinity. *)
Definition sround (K V : Z) : Z :=
  if V <? 0 then - Z.min (round K (- V)) (Top * 2 ^ K)
  else Z.min (round K V) (Top * 2 ^ K).

End Values.

(** The value of a binary64 number, in units of [2 ^ -1074]. *)
Definition value (x : float) : Z := val (Prim2SF x).

(** ** Example samples *)

(** A height map whose scaled samples overflow. *)
Definition overflow_map : channel :=
  Channel [[1e300; 2e300]]%float 1e-6 1e-6.

(** A force map with two samples. *)
Definition tenths_map : channel :=
  Channel [[0.1; 0.3]]%float 1e-6 1e-6.

(** The lowest processed sample of the height channel [ch] is zero. *)
Definition height_minimum_is_zero (ch : channel) : Prop :=
  forall p out lo,
    params !! "ZSensor" = Some p ->
    scale_data "ZSensor" p ch = Ok out ->
    Np.min out = Some lo ->
    (lo =? 0)%float = true.

(** The width of the processed range of the channel [ch] under [key] is
    the width of its input range times the scale factor. *)
Definition range_scales_exactly (key : string) (ch : channel) : Prop :=
  forall p out lo hi lo' hi',
    params !! key = Some p ->
    scale_data key p ch = Ok out ->
    Np.min (data ch) = Some lo -> Np.max (data ch) = Some hi ->
    Np.min out = Some lo' -> Np.max out = Some hi' ->
    (hi' - lo')%float = ((hi - lo) * datascale p)%float.

(** * Properties *)

(** ** The monad and the loops *)

Section Loops.
Context {A : Type}.
Implicit Types (body : A -> M unit) (st : state).

Lemma for_each_nil body st : for_each [] body st = (Ok tt, st).
Proof. reflexivity. Qed.

Lemma for_each_cons_ok body x xs st st' :
  body x st = (Ok tt, st') ->
  for_each (x :: xs) body st = for_each xs body st'.
Proof. intros H. cbn. unfold bind. now rewrite H. Qed.

Lemma for_each_cons_raise body x xs st st' err :
  body x st = (Raise err, st') ->
  for_each (x :: xs) body st = (Raise err, st').
Proof. intros H. cbn. unfold bind. now rewrite H. Qed.

Lemma for_each_app_ok body xs ys st st' :
  for_each xs body st = (Ok tt, st') ->
  for_each (xs ++ ys) body st = for_each ys body st'.
Proof.
  revert st. induction xs as [|x xs IH]; intros st H.
  - cbn in H. now inversion H.
  - cbn in *. unfold bind in *.
    destruct (body x st) as [[[]|err] st1]; [now apply IH | discriminate].
Qed.

Lemma for_each_app_raise body xs ys st st' err :
  for_each xs body st = (Raise err, st') ->
  for_each (xs ++ ys) body st = (Raise err, st').
Proof.
  revert st. induction xs as [|x xs IH]; intros st H.
  - discriminate.
  - cbn in *. unfold bind in *.
    destruct (body x st) as [[[]|err'] st1]; [now apply IH | assumption].
Qed.

End Loops.

(** ** The configuration table *)

Lemma params_lookup_inv (k : string) (p : channel_params) :
  params !! k = Some p ->
  (k = "ZSensor" /\ p = ChannelParams "afmhot" 1e9 "Height [nm]") \/
  (k = "Peak Force Error" /\ p = ChannelParams "gray" 1e3 "Peak Force [mV]") \/
  (k = "Potential" /\ p = ChannelParams "inferno" 1 "Potential [V]").
Proof.
  unfold params. intros H.
  destruct (decide (k = "ZSensor")) as [->|n1].
  { rewrite lookup_insert_eq in H. inversion H. auto. }
  rewrite lookup_insert_ne in H by congruence.
  destruct (decide (k = "Peak Force Error")) as [->|n2].
  { rewrite lookup_insert_eq in H. inversion H. auto. }
  rewrite lookup_insert_ne in H by congruence.
  destruct (decide (k = "Potential")) as [->|n3].
  { rewrite lookup_insert_eq in H. inversion H. auto. }
  rewrite lookup_insert_ne in H by congruence.
  now rewrite lookup_empty in H.
Qed.

Lemma params_datascale_pos (k : string) (p : channel_params) :
  params !! k = Some p ->
  (0 <? datascale p)%float = true /\ is_finite (datascale p) = true.
Proof.
  intros H. destruct (params_lookup_inv k p H) as [[_ ->]|[[_ ->]|[_ ->]]];
    split; reflexivity.
Qed.

Lemma process_channel_unrecognized e folder file key ch st :
  params !! key = None ->
  process_channel e folder file (key, ch) st = (Ok tt, st).
Proof. intros H. unfold process_channel. now rewrite H. Qed.

Lemma scale_data_not_height key p ch :
  key <> "ZSensor" ->
  scale_data key p ch = Ok (Np.mul_scalar (data ch) (datascale p)).
Proof.
  intros H. unfold scale_data.
  destruct (String.eqb_spec key "ZSensor") as [E|_]; [contradiction | reflexivity].
Qed.

(** C10.  The table [params] holds exactly three entries: 'ZSensor' with
    colormap 'afmhot', scale 1e9 and label 'Height [nm]'; 'Peak Force Error'
    with 'gray', 1e3 and 'Peak Force [mV]'; 'Potential' with 'inferno', 1 and
    'Potential [V]'.  A channel with any other name leaves the run's state
    untouched, so it cannot produce an image, and the subtraction of the
    minimum is applied to 'ZSensor' alone: under any other name the scaled
    samples are the result. *)
Theorem params_three_channels :
  (forall k p,
     params !! k = Some p <->
     (k = "ZSensor" /\ p = ChannelParams "afmhot" 1e9 "Height [nm]") \/
     (k = "Peak Force Error" /\ p = ChannelParams "gray" 1e3 "Peak Force [mV]") \/
     (k = "Potential" /\ p = ChannelParams "inferno" 1 "Potential [V]")) /\
  (forall e folder file key ch st,
     key <> "ZSensor" -> key <> "Peak Force Error" -> key <> "Potential" ->
     process_channel e folder file (key, ch) st = (Ok tt, st)) /\
  (forall key p ch,
     key <> "ZSensor" ->
     scale_data key p ch = Ok (Np.mul_scalar (data ch) (datascale p))).
Proof.
  split; [|split].
  - intros k p. split; [apply params_lookup_inv|].
    intros [[-> ->]|[[-> ->]|[-> ->]]]; reflexivity.
  - intros e folder file key ch st n1 n2 n3.
    apply process_channel_unrecognized.
    destruct (params !! key) as [p|] eqn:E; [|reflexivity].
    destruct (params_lookup_inv key p E) as [[? _]|[[? _]|[? _]]]; contradiction.
  - intros key p ch. apply scale_data_not_height.
Qed.

(** ** The trace is only appended to *)

Lemma framed_ret {A} (a : A) : framed (ret a).
Proof. intros t o. cbn. now rewrite app_nil_r. Qed.

Lemma framed_raise {A} (err : exn) : framed (@raise A err).
Proof. intros t o. cbn. now rewrite app_nil_r. Qed.

Lemma framed_lift {A} (r : result A) : framed (lift r).
Proof. intros t o. cbn. now rewrite app_nil_r. Qed.

Lemma framed_emit ev : framed (emit ev).
Proof. intros t o. reflexivity. Qed.

Lemma framed_subplots layout : framed (subplots layout).
Proof. intros t o. cbn. now rewrite app_nil_r. Qed.

Lemma framed_bind {A B} (c : M A) (k : A -> M B) :
  framed c -> (forall a, framed (k a)) -> framed (bind c k).
Proof.
  intros Hc Hk t o. unfold bind. rewrite (Hc t o).
  destruct (c (State [] o)) as [[a|err] [d o']]; cbn.
  - rewrite (Hk a (t ++ d) o'), (Hk a d o'). cbn. now rewrite app_assoc.
  - reflexivity.
Qed.

Lemma framed_for_each {A} (body : A -> M unit) (l : list A) :
  (forall x, framed (body x)) -> framed (for_each l body).
Proof.
  intros Hb. induction l as [|x l IH]; cbn [for_each].
  - apply framed_ret.
  - apply framed_bind; auto.
Qed.

Lemma framed_savefig e fig path dpi bb : framed (savefig e fig path dpi bb).
Proof.
  unfold savefig. destruct (savefig_error e path);
    [apply framed_raise | apply framed_emit].
Qed.

Lemma framed_process_channel e folder file item :
  framed (process_channel e folder file item).
Proof.
  destruct item as [key ch]. unfold process_channel.
  destruct (params !! key) as [p|]; [|apply framed_ret].
  apply framed_bind; [apply framed_lift|]. intros d.
  apply framed_bind; [apply framed_subplots|]. intros fig.
  apply framed_bind; [apply framed_lift|]. intros fig'.
  apply framed_savefig.
Qed.

Lemma framed_process_file e folder file : framed (process_file e folder file).
Proof.
  unfold process_file. destruct (get_datafields_load e file) as [chs|err].
  - apply framed_for_each. intros x. apply framed_process_channel.
  - apply framed_emit.
Qed.

Lemma framed_files e folder files :
  framed (for_each files (process_file e folder)).
Proof. apply framed_for_each. intros x. apply framed_process_file. Qed.

(** A framed run, seen from any starting state. *)
Lemma framed_run {A} (c : M A) st :
  framed c ->
  exists r d o,
    c (State [] (open_figs st)) = (r, State d o) /\
    c st = (r, State (trace st ++ d) o).
Proof.
  intros Hc. destruct st as [t o]. cbn.
  destruct (c (State [] o)) as [r [d o']] eqn:E.
  exists r, d, o'. split; [reflexivity|].
  rewrite (Hc t o), E. reflexivity.
Qed.

(** ** A file that fails to load *)

Lemma process_file_load_error e folder file err st :
  get_datafields_load e file = Raise err ->
  process_file e folder file st =
  (Ok tt, State (trace st ++ [Printed (load_error_line file err)]) (open_figs st)).
Proof. intros H. unfold process_file. now rewrite H. Qed.

(** C3.  When loading a file raises, the loop body catches the error and
    prints one line, "Error loading <file>: <cause>", and nothing else
    changes; the loop goes on with the files that follow, and they are
    processed exactly as they would be without the bad file: same result,
    same events after the diagnostic line, same figures. *)
Theorem load_failure_is_isolated e folder bad err rest st :
  get_datafields_load e bad = Raise err ->
  let line := "Error loading " +:+ bad +:+ ": " +:+ exn_str err in
  process_file e folder bad st =
    (Ok tt, State (trace st ++ [Printed line]) (open_figs st)) /\
  exists r d o,
    for_each rest (process_file e folder) st =
      (r, State (trace st ++ d) o) /\
    for_each (bad :: rest) (process_file e folder) st =
      (r, State (trace st ++ [Printed line] ++ d) o).
Proof.
  intros H line.
  pose proof (process_file_load_error e folder bad err st H) as Hbad.
  split; [exact Hbad|].
  destruct (framed_run (for_each rest (process_file e folder)) st
              (framed_files e folder rest)) as (r & d & o & H0 & H1).
  exists r, d, o. split; [exact H1|].
  rewrite (for_each_cons_ok _ _ _ _ _ Hbad).
  rewrite (framed_files e folder rest _ _), H0. cbn.
  now rewrite <- app_assoc.
Qed.

(** ** No scan file in the folder *)

Lemma gwy_files_none e :
  (forall f, In f (listdir e) -> Py.endswith f ".gwy" = false) ->
  gwy_files e = [].
Proof.
  unfold gwy_files. induction (listdir e) as [|f l IH]; intros H; [reflexivity|].
  cbn. rewrite (H f) by now left. apply IH. intros g Hg. apply H. now right.
Qed.

(** C6.  When no name in the working directory ends in '.gwy', the run
    prints the one message "No .gwy files found in the folder." and returns
    normally (exit status 0): no directory is created, not even
    'processed_images', no image is written and no figure is opened. *)
Theorem no_scan_files_early_exit e :
  (forall f, In f (listdir e) -> Py.endswith f ".gwy" = false) ->
  process_gwy_files e init =
    (Ok tt, State [Printed "No .gwy files found in the folder."] []) /\
  exit_code (fst (process_gwy_files e init)) = 0%Z /\
  made_dirs (trace (snd (process_gwy_files e init))) = [] /\
  saved_paths (trace (snd (process_gwy_files e init))) = [].
Proof.
  intros H. unfold process_gwy_files. rewrite (gwy_files_none e H).
  repeat split.
Qed.

(** ** Rendering one channel *)

Lemma ravel_map (f : float -> float) (a : Np.ndarray) :
  Np.ravel (map (map f) a) = map f (Np.ravel a).
Proof.
  unfold Np.ravel. induction a as [|row a IH]; cbn; [reflexivity|].
  now rewrite map_app, IH.
Qed.

Lemma ravel_mul_scalar a s :
  Np.ravel (Np.mul_scalar a s) = map (fun x => (x * s)%float) (Np.ravel a).
Proof. apply ravel_map. Qed.

Lemma reduce_is_Some op (l : list float) : l <> [] -> is_Some (Np.reduce op l).
Proof. destruct l; [contradiction | intros _; now eexists]. Qed.

Lemma reduce_None op (l : list float) : Np.reduce op l = None -> l = [].
Proof. destruct l; [reflexivity | discriminate]. Qed.

Lemma map_not_nil {X Y} (f : X -> Y) (l : list X) : l <> [] -> map f l <> [].
Proof. destruct l; [contradiction | discriminate]. Qed.

Lemma scale_data_nonempty key p ch :
  Np.ravel (data ch) <> [] ->
  exists d, scale_data key p ch = Ok d /\ Np.ravel d <> [].
Proof.
  intros Hne. unfold scale_data.
  assert (Hs : Np.ravel (Np.mul_scalar (data ch) (datascale p)) <> []).
  { unfold Np.mul_scalar. rewrite ravel_map. now apply map_not_nil. }
  destruct (String.eqb key "ZSensor"); [|eauto].
  destruct (reduce_is_Some Np.minimum _ Hs) as [m Hm]. unfold Np.min. rewrite Hm.
  eexists. split; [reflexivity|].
  unfold Np.sub_scalar. rewrite ravel_map. now apply map_not_nil.
Qed.

(** What the body of the channel loop does, case by case. *)
Lemma process_channel_cases e folder file key ch st :
  let run := process_channel e folder file (key, ch) st in
  let n := next_num (open_figs st) in
  let opened := open_figs st ++ [n] in
  match params !! key with
  | None => run = (Ok tt, st)
  | Some p =>
    match scale_data key p ch with
    | Raise err => run = (Raise err, st)
    | Ok d =>
      match Np.min d, Np.max d with
      | None, _ => run = (Raise (Np.zero_size "minimum"), State (trace st) opened)
      | Some _, None =>
          run = (Raise (Np.zero_size "maximum"), State (trace st) opened)
      | Some lo, Some hi =>
        match savefig_error e (output_path folder file key) with
        | Some err => run = (Raise err, State (trace st) opened)
        | None =>
            run = (Ok tt,
                   State (trace st ++
                            [SavedFig (output_path folder file key)
                                      (drawn n p ch d lo hi) 300 "tight"])
                         opened)
        end
      end
    end
  end.
Proof.
  cbv zeta. unfold process_channel.
  destruct (params !! key) as [p|]; [|reflexivity].
  unfold bind, lift, subplots.
  destruct (scale_data key p ch) as [d|err]; [|reflexivity].
  unfold add_cbar. cbn [trace open_figs].
  destruct (Np.min d) as [lo|]; [|reflexivity].
  destruct (Np.max d) as [hi|]; [|reflexivity].
  unfold savefig.
  destruct (savefig_error e (output_path folder file key)); reflexivity.
Qed.

Lemma process_channel_savefig_error e folder file key ch p err st :
  params !! key = Some p ->
  Np.ravel (data ch) <> [] ->
  savefig_error e (output_path folder file key) = Some err ->
  process_channel e folder file (key, ch) st =
  (Raise err, State (trace st) (open_figs st ++ [next_num (open_figs st)])).
Proof.
  intros Hp Hne Herr.
  pose proof (process_channel_cases e folder file key ch st) as Hc.
  cbv zeta in Hc. rewrite Hp in Hc.
  destruct (scale_data_nonempty key p ch Hne) as (d & Hd & Hdne).
  rewrite Hd in Hc.
  destruct (reduce_is_Some Np.minimum _ Hdne) as [lo Hlo].
  destruct (reduce_is_Some Np.maximum _ Hdne) as [hi Hhi].
  unfold Np.min, Np.max in Hc. rewrite Hlo, Hhi, Herr in Hc. exact Hc.
Qed.

(** ** A failure while an image is saved *)

(** C7.  Nothing catches an error raised while an image is saved.  Let the
    files before [file] and the channels of [file] before [key] be
    processed without error, and let saving the image of [key] fail with
    [err]: the whole run ends with [err] (exit status 1), the trace stops
    where it was before the failed save, and neither the remaining channels
    of the file nor the files after it are touched. *)
Theorem save_failure_is_fatal e pre file post chs_pre key ch chs_post p err st1 st2 :
  let folder := Py.path_join (getcwd e) "processed_images" in
  gwy_files e = pre ++ file :: post ->
  makedirs_error e folder = None ->
  for_each pre (process_file e folder) (State [MadeDirs folder] []) = (Ok tt, st1) ->
  get_datafields_load e file = Ok (chs_pre ++ (key, ch) :: chs_post) ->
  for_each chs_pre (process_channel e folder file) st1 = (Ok tt, st2) ->
  params !! key = Some p ->
  Np.ravel (data ch) <> [] ->
  savefig_error e (output_path folder file key) = Some err ->
  process_gwy_files e init =
    (Raise err, State (trace st2) (open_figs st2 ++ [next_num (open_figs st2)])) /\
  exit_code (fst (process_gwy_files e init)) = 1%Z.
Proof.
  intros folder Hfiles Hmk Hpre Hload Hchs Hp Hne Herr.
  assert (Hrun : process_gwy_files e init =
    (Raise err, State (trace st2) (open_figs st2 ++ [next_num (open_figs st2)]))).
  { unfold process_gwy_files. rewrite Hfiles.
    destruct (pre ++ file :: post) as [|f0 fs] eqn:E.
    { now destruct pre. }
    rewrite <- E. fold folder.
    unfold bind at 1. unfold makedirs. rewrite Hmk. cbn [emit init trace open_figs app].
    rewrite (for_each_app_ok _ _ _ _ _ Hpre).
    apply for_each_cons_raise.
    unfold process_file. rewrite Hload.
    rewrite (for_each_app_ok _ _ _ _ _ Hchs).
    apply for_each_cons_raise.
    now apply process_channel_savefig_error with (p := p). }
  split; [exact Hrun | now rewrite Hrun].
Qed.

Lemma load_failure_is_isolated_witness :
  process_file scans_env "/home/u/scans/processed_images" "bad.gwy" init =
    (Ok tt, State [Printed "Error loading bad.gwy: unexpected end of file"] []) /\
  exists r d o,
    for_each ["good.gwy"] (process_file scans_env "/home/u/scans/processed_images")
      init = (r, State d o) /\
    for_each ["bad.gwy"; "good.gwy"]
      (process_file scans_env "/home/u/scans/processed_images") init =
      (r, State ([Printed "Error loading bad.gwy: unexpected end of file"] ++ d) o).
Proof.
  exact (load_failure_is_isolated scans_env "/home/u/scans/processed_images"
           "bad.gwy" truncated_file ["good.gwy"] init eq_refl).
Defined.

Lemma no_scan_files_early_exit_witness :
  process_gwy_files empty_env init =
    (Ok tt, State [Printed "No .gwy files found in the folder."] []) /\
  exit_code (fst (process_gwy_files empty_env init)) = 0%Z /\
  made_dirs (trace (snd (process_gwy_files empty_env init))) = [] /\
  saved_paths (trace (snd (process_gwy_files empty_env init))) = [].
Proof.
  apply (no_scan_files_early_exit empty_env).
  intros f [<-|[<-|[]]]; reflexivity.
Defined.

Lemma save_failure_is_fatal_witness :
  fst (process_gwy_files full_disk_env init) = Raise disk_full /\
  saved_paths (trace (snd (process_gwy_files full_disk_env init))) =
    ["/home/u/scans/processed_images/first.ZSensor.png"] /\
  exit_code (fst (process_gwy_files full_disk_env init)) = 1%Z.
Proof.
  pose proof (save_failure_is_fatal full_disk_env [] "first.gwy" ["second.gwy"]
    [("ZSensor", height_map)] "Potential" force_map
    [("Peak Force Error", force_map)]
    (ChannelParams "inferno" 1 "Potential [V]") disk_full
    (State [MadeDirs "/home/u/scans/processed_images"] [])
    (snd (process_channel full_disk_env "/home/u/scans/processed_images"
            "first.gwy" ("ZSensor", height_map)
            (State [MadeDirs "/home/u/scans/processed_images"] [])))
    eq_refl eq_refl eq_refl eq_refl eq_refl eq_refl
    ltac:(discriminate) eq_refl) as [Hrun Hexit].
  rewrite Hrun. repeat split.
Defined.

(** ** Images and recognized pairs *)

Section Emits.
Context {A B : Type} (proj : state -> list B) (out : A -> list B).
Context (body : A -> M unit).

(** A loop whose body appends to a reading of the state the items [out x],
    or a prefix of them when it raises, appends those of all elements in
    order, or a prefix when it raises. *)
Lemma for_each_emits :
  (forall x st, exists l,
      proj (snd (body x st)) = proj st ++ l /\
      l `prefix_of` out x /\
      (fst (body x st) = Ok tt -> l = out x)) ->
  forall xs st, exists l,
      proj (snd (for_each xs body st)) = proj st ++ l /\
      l `prefix_of` flat_map out xs /\
      (fst (for_each xs body st) = Ok tt -> l = flat_map out xs).
Proof.
  intros Hb xs. induction xs as [|x xs IH]; intros st.
  - exists []. cbn. rewrite app_nil_r. auto using prefix_nil.
  - destruct (Hb x st) as (l & Hl & Hpre & Hok).
    cbn [for_each flat_map]. unfold bind.
    destruct (body x st) as [[[]|err] st1]; cbn [fst snd] in *.
    + destruct (IH st1) as (l' & Hl' & Hpre' & Hok').
      exists (l ++ l'). rewrite Hl', Hl, app_assoc.
      rewrite (Hok eq_refl). split; [reflexivity|]. split.
      * now apply prefix_app.
      * intros H. now rewrite (Hok' H).
    + exists l. split; [exact Hl|]. split; [|discriminate].
      now apply prefix_app_r.
Qed.

End Emits.

Lemma saved_paths_app t1 t2 : saved_paths (t1 ++ t2) = saved_paths t1 ++ saved_paths t2.
Proof. apply omap_app. Qed.

(** The path the body of the channel loop writes for an item, if any. *)
Lemma process_channel_paths e folder file item st :
  exists l,
    saved_paths (trace (snd (process_channel e folder file item st))) =
      saved_paths (trace st) ++ l /\
    l `prefix_of` map (fun kc => output_path folder file (fst kc)) (recognized [item]) /\
    (fst (process_channel e folder file item st) = Ok tt ->
     l = map (fun kc => output_path folder file (fst kc)) (recognized [item])).
Proof.
  destruct item as [key ch].
  pose proof (process_channel_cases e folder file key ch st) as Hc.
  cbv zeta in Hc. unfold recognized. cbn [List.filter fst].
  destruct (params !! key) as [p|].
  2:{ rewrite Hc. exists []. cbn. rewrite app_nil_r. auto using prefix_nil. }
  cbn [map fst].
  assert (Hraise : forall err st',
    trace st' = trace st ->
    process_channel e folder file (key, ch) st = (Raise err, st') ->
    exists l,
      saved_paths (trace (snd (process_channel e folder file (key, ch) st))) =
        saved_paths (trace st) ++ l /\
      l `prefix_of` [output_path folder file key] /\
      (fst (process_channel e folder file (key, ch) st) = Ok tt ->
       l = [output_path folder file key])).
  { intros err st' Ht ->. exists []. cbn. rewrite Ht, app_nil_r.
    split; [reflexivity|]. split; [apply prefix_nil | discriminate]. }
  destruct (scale_data key p ch) as [d|err];
    [|eapply Hraise; [|exact Hc]; reflexivity].
  destruct (Np.min d) as [lo|]; [|eapply Hraise; [|exact Hc]; reflexivity].
  destruct (Np.max d) as [hi|]; [|eapply Hraise; [|exact Hc]; reflexivity].
  destruct (savefig_error e (output_path folder file key));
    [eapply Hraise; [|exact Hc]; reflexivity|].
  rewrite Hc. exists [output_path folder file key]. cbn [fst snd trace].
  rewrite saved_paths_app. auto.
Qed.

Lemma recognized_flat_map {X} (f : string * channel -> X) chs :
  flat_map (fun item => map f (recognized [item])) chs = map f (recognized chs).
Proof.
  induction chs as [|[key ch] chs IH]; [reflexivity|].
  change (map f (recognized [(key, ch)]) ++
          flat_map (fun item => map f (recognized [item])) chs =
          map f (recognized ([(key, ch)] ++ chs))).
  unfold recognized at 3. rewrite List.filter_app. fold (recognized chs).
  fold (recognized [(key, ch)]). now rewrite map_app, <- IH.
Qed.

Lemma process_file_paths e folder file st :
  exists l,
    saved_paths (trace (snd (process_file e folder file st))) =
      saved_paths (trace st) ++ l /\
    l `prefix_of` map (fun kc => output_path folder file (fst kc))
                      (recognized (channels_of e file)) /\
    (fst (process_file e folder file st) = Ok tt ->
     l = map (fun kc => output_path folder file (fst kc))
             (recognized (channels_of e file))).
Proof.
  unfold process_file, channels_of.
  destruct (get_datafields_load e file) as [chs|err].
  - rewrite <- recognized_flat_map.
    apply (for_each_emits (fun st => saved_paths (trace st))).
    intros item st'. apply process_channel_paths.
  - exists []. cbn. rewrite saved_paths_app, app_nil_r. cbn. rewrite app_nil_r.
    auto using prefix_nil.
Qed.

Lemma map_flat_map {X Y Z} (g : Y -> Z) (f : X -> list Y) (l : list X) :
  map g (flat_map f l) = flat_map (fun x => map g (f x)) l.
Proof.
  induction l as [|x l IH]; [reflexivity|].
  cbn. now rewrite map_app, IH.
Qed.

Lemma expected_paths_pairs e folder :
  flat_map (fun file => map (fun kc => output_path folder file (fst kc))
                            (recognized (channels_of e file))) (gwy_files e) =
  map (fun fk => output_path folder (fst fk) (snd fk)) (recognized_pairs e).
Proof.
  unfold recognized_pairs. rewrite map_flat_map.
  induction (gwy_files e) as [|f l IH]; [reflexivity|].
  cbn [flat_map]. rewrite IH. f_equal. now rewrite map_map.
Qed.

Lemma makedirs_then {A} e folder (c : M A) :
  (makedirs e folder ;;; c) init =
  match makedirs_error e folder with
  | Some err => (Raise err, init)
  | None => c (State [MadeDirs folder] [])
  end.
Proof. unfold bind, makedirs. destruct (makedirs_error e folder); reflexivity. Qed.

Lemma run_paths e :
  let folder := Py.path_join (getcwd e) "processed_images" in
  let expected :=
    map (fun fk => output_path folder (fst fk) (snd fk)) (recognized_pairs e) in
  saved_paths (trace (snd (process_gwy_files e init))) `prefix_of` expected /\
  (fst (process_gwy_files e init) = Ok tt ->
   saved_paths (trace (snd (process_gwy_files e init))) = expected).
Proof.
  intros folder expected. subst expected.
  rewrite <- expected_paths_pairs.
  unfold process_gwy_files. fold folder.
  destruct (gwy_files e) as [|f0 fs] eqn:E.
  { cbn. split; [apply prefix_nil | reflexivity]. }
  rewrite makedirs_then.
  destruct (makedirs_error e folder) as [err|].
  { cbn. split; [apply prefix_nil | discriminate]. }
  destruct (for_each_emits (fun st => saved_paths (trace st))
              (fun file => map (fun kc => output_path folder file (fst kc))
                               (recognized (channels_of e file)))
              (process_file e folder)
              (fun x st => process_file_paths e folder x st)
              (f0 :: fs) (State [MadeDirs folder] []))
    as (l & Hl & Hpre & Hok).
  change (saved_paths (trace (State [MadeDirs folder] []))) with (@nil string) in Hl.
  rewrite app_nil_l in Hl.
  rewrite Hl. split; [exact Hpre|exact Hok].
Qed.

Lemma recognized_pairs_In e file key :
  In (file, key) (recognized_pairs e) ->
  In file (gwy_files e) /\
  is_Some (params !! key) /\
  exists chs ch, get_datafields_load e file = Ok chs /\ In (key, ch) chs.
Proof.
  unfold recognized_pairs. rewrite in_flat_map.
  intros (f & Hf & Hin). apply in_map_iff in Hin as ([k ch] & Heq & Hin).
  cbn in Heq. inversion Heq; subst f k; clear Heq.
  unfold recognized in Hin. apply filter_In in Hin as [Hin Hrec].
  cbn [fst] in Hrec. split; [exact Hf|]. split.
  - destruct (params !! key); [now eexists | discriminate].
  - unfold channels_of in Hin.
    destruct (get_datafields_load e file) as [chs|err]; [|contradiction].
    now exists chs, ch.
Qed.

(** C4.  A channel whose name is not in [params] is skipped without a
    trace: the loop body returns normally and leaves the state as it was
    (no image, no line, no figure, no error).  The images of a run are, in
    order, those of the pairs (discovered file, channel of that file named
    in [params]), one image per pair: all of them when the run ends
    normally, the first ones when an error ends it early. *)
Theorem unrecognized_channels_are_skipped e :
  (forall folder file key ch st,
     params !! key = None ->
     process_channel e folder file (key, ch) st = (Ok tt, st)) /\
  (let folder := Py.path_join (getcwd e) "processed_images" in
   let expected :=
     map (fun fk => output_path folder (fst fk) (snd fk)) (recognized_pairs e) in
   saved_paths (trace (snd (process_gwy_files e init))) `prefix_of` expected /\
   (fst (process_gwy_files e init) = Ok tt ->
    saved_paths (trace (snd (process_gwy_files e init))) = expected)) /\
  (forall file key,
     In (file, key) (recognized_pairs e) ->
     In file (gwy_files e) /\
     is_Some (params !! key) /\
     exists chs ch, get_datafields_load e file = Ok chs /\ In (key, ch) chs).
Proof.
  split; [|split].
  - intros folder file key ch st. apply process_channel_unrecognized.
  - apply run_paths.
  - apply recognized_pairs_In.
Qed.

(** The run of [two_scans_env]: one line for the scan that cannot be
    parsed, one image for the height channel of the other. *)
Example two_scans_env_run :
  fst (process_gwy_files two_scans_env init) = Ok tt /\
  printed (trace (snd (process_gwy_files two_scans_env init))) =
    ["Error loading broken.gwy: unexpected end of file"] /\
  saved_paths (trace (snd (process_gwy_files two_scans_env init))) =
    ["/home/u/two/processed_images/sample.ZSensor.png"] /\
  made_dirs (trace (snd (process_gwy_files two_scans_env init))) =
    ["/home/u/two/processed_images"].
Proof. vm_compute. repeat split. Qed.

(** The run of [scans_env]: the corrupt file gives one line, the phase
    channel nothing, the height and force channels one image each. *)
Example scans_env_run :
  fst (process_gwy_files scans_env init) = Ok tt /\
  printed (trace (snd (process_gwy_files scans_env init))) =
    ["Error loading bad.gwy: unexpected end of file"] /\
  saved_paths (trace (snd (process_gwy_files scans_env init))) =
    ["/home/u/scans/processed_images/good.ZSensor.png";
     "/home/u/scans/processed_images/good.Peak Force Error.png"] /\
  recognized_pairs scans_env =
    [("good.gwy", "ZSensor"); ("good.gwy", "Peak Force Error")].
Proof. vm_compute. repeat split. Qed.

(** ** Invariants of a run *)

Section Invariant.
Context (Inv : state -> Prop).

Lemma for_each_invariant {A} (body : A -> M unit) :
  (forall x st, Inv st -> Inv (snd (body x st))) ->
  forall xs st, Inv st -> Inv (snd (for_each xs body st)).
Proof.
  intros Hb xs. induction xs as [|x xs IH]; intros st Hst; [exact Hst|].
  cbn [for_each]. unfold bind. specialize (Hb x st Hst).
  destruct (body x st) as [[[]|err] st1]; cbn [snd] in *; auto.
Qed.

(** An invariant that depends on the trace through the saved figures only
    and on the open figures, and that the three ways a channel can end
    preserve, holds after a run. *)
Context (Inv_init : Inv init).
Context (Inv_event : forall t o ev,
  saved_fig ev = None -> Inv (State t o) -> Inv (State (t ++ [ev]) o)).
Context (Inv_open : forall t o,
  Inv (State t o) -> Inv (State t (o ++ [next_num o]))).
Context (Inv_save : forall t o path p ch d lo hi,
  Np.min d = Some lo -> Np.max d = Some hi ->
  Inv (State t o) ->
  Inv (State (t ++ [SavedFig path (drawn (next_num o) p ch d lo hi) 300 "tight"])
             (o ++ [next_num o]))).

Lemma process_channel_invariant e folder file item st :
  Inv st -> Inv (snd (process_channel e folder file item st)).
Proof.
  destruct item as [key ch]. destruct st as [t o]. intros Hst.
  pose proof (process_channel_cases e folder file key ch (State t o)) as Hc.
  cbv zeta in Hc. cbn [trace open_figs] in Hc.
  destruct (params !! key) as [p|]; [|now rewrite Hc].
  destruct (scale_data key p ch) as [d|err]; [|now rewrite Hc].
  destruct (Np.min d) as [lo|] eqn:Hlo; [|rewrite Hc; now apply Inv_open].
  destruct (Np.max d) as [hi|] eqn:Hhi; [|rewrite Hc; now apply Inv_open].
  destruct (savefig_error e (output_path folder file key));
    rewrite Hc; [now apply Inv_open | now apply Inv_save].
Qed.

Lemma process_file_invariant e folder file st :
  Inv st -> Inv (snd (process_file e folder file st)).
Proof.
  intros Hst. unfold process_file.
  destruct (get_datafields_load e file) as [chs|err].
  - apply for_each_invariant; [|exact Hst].
    intros x st'. apply process_channel_invariant.
  - destruct st as [t o]. now apply Inv_event.
Qed.

Lemma run_invariant e : Inv (snd (process_gwy_files e init)).
Proof.
  unfold process_gwy_files. destruct (gwy_files e) as [|f0 fs].
  - now apply (Inv_event [] []).
  - rewrite makedirs_then. destruct (makedirs_error e _); [exact Inv_init|].
    apply for_each_invariant.
    + intros x st. apply process_file_invariant.
    + now apply (Inv_event [] []).
Qed.

End Invariant.

Lemma saved_figs_snoc t ev :
  saved_figs (t ++ [ev]) =
  saved_figs t ++ match saved_fig ev with Some fig => [fig] | None => [] end.
Proof.
  unfold saved_figs. rewrite omap_app. cbn. now destruct (saved_fig ev).
Qed.

Lemma saved_figs_other t ev : saved_fig ev = None -> saved_figs (t ++ [ev]) = saved_figs t.
Proof. intros H. now rewrite saved_figs_snoc, H, app_nil_r. Qed.

(** ** Colorbar and scale bar *)

Lemma drawn_annotated n p ch d lo hi :
  Np.min d = Some lo -> Np.max d = Some hi -> annotated (drawn n p ch d lo hi).
Proof.
  intros Hlo Hhi. unfold annotated, drawn. cbn.
  do 6 eexists. repeat split; eauto.
Qed.

Lemma process_channel_saves e folder file key ch p st st' :
  params !! key = Some p ->
  process_channel e folder file (key, ch) st = (Ok tt, st') ->
  exists d lo hi,
    scale_data key p ch = Ok d /\
    Np.min d = Some lo /\ Np.max d = Some hi /\
    st' = State (trace st ++
                   [SavedFig (output_path folder file key)
                             (drawn (next_num (open_figs st)) p ch d lo hi)
                             300 "tight"])
                (open_figs st ++ [next_num (open_figs st)]).
Proof.
  intros Hp Hrun.
  pose proof (process_channel_cases e folder file key ch st) as Hc.
  cbv zeta in Hc. rewrite Hp in Hc.
  destruct (scale_data key p ch) as [d|err]; [|congruence].
  destruct (Np.min d) as [lo|] eqn:Hlo; [|congruence].
  destruct (Np.max d) as [hi|] eqn:Hhi; [|congruence].
  destruct (savefig_error e (output_path folder file key)); [congruence|].
  exists d, lo, hi. repeat split; congruence.
Qed.

(** C9.  Every image a run saves shows one colorbar and one scale bar.
    The colorbar carries the lowest and the highest sample of the displayed
    array under the format [.3g] (three significant figures); the scale bar
    has length fraction 0.3, sits in the lower left corner and has no
    frame.  The displayed array is the one [scale_data] returns: the
    samples after scaling and, for the height channel, after the shift. *)
Theorem images_carry_colorbar_and_scalebar e :
  Forall annotated (saved_figs (trace (snd (process_gwy_files e init)))) /\
  (forall folder file key ch p st st',
     params !! key = Some p ->
     process_channel e folder file (key, ch) st = (Ok tt, st') ->
     exists d lo hi fig,
       scale_data key p ch = Ok d /\
       Np.min d = Some lo /\ Np.max d = Some hi /\
       trace st' = trace st ++ [SavedFig (output_path folder file key) fig 300 "tight"] /\
       ax_images fig =
         [AxesImage d "none" "upper" (0%float, xreal ch, 0%float, yreal ch) (cmap p)] /\
       fig_colorbars fig =
         [Colorbar 0.5 12 0.03 false
            [ Text 0.5 (0 - 0.07) (FormatG 3 lo) 0;
              Text 0.5 (1 + 0.07) (FormatG 3 hi) 0;
              Text 2.25 0.5 (Literal (label p)) (-90) ]] /\
       ax_artists fig =
         [ScaleBar 1 "m" 0.3 "lower left" "top" false 1.5 0.012 "white"]).
Proof.
  split.
  - apply (run_invariant (fun st => Forall annotated (saved_figs (trace st)))).
    + constructor.
    + intros t o ev Hev H. cbn [trace] in *. now rewrite saved_figs_other.
    + intros t o H. exact H.
    + intros t o path p ch d lo hi Hlo Hhi H. cbn [trace] in *.
      rewrite saved_figs_snoc. cbn [saved_fig]. apply Forall_app. split; [exact H|].
      constructor; [|constructor]. now apply drawn_annotated.
  - intros folder file key ch p st st' Hp Hrun.
    destruct (process_channel_saves e folder file key ch p st st' Hp Hrun)
      as (d & lo & hi & Hd & Hlo & Hhi & ->).
    exists d, lo, hi, (drawn (next_num (open_figs st)) p ch d lo hi).
    repeat split; assumption.
Qed.

(** ** Figures are opened and never closed *)

Lemma fold_max_seq a n :
  fold_right Nat.max 0%nat (seq a n) = match n with O => O | S _ => (a + n - 1)%nat end.
Proof.
  revert a. induction n as [|n IH]; intros a; [reflexivity|].
  cbn [seq fold_right]. rewrite IH. destruct n; lia.
Qed.

Lemma next_num_seq n : next_num (seq 1 n) = S n.
Proof. unfold next_num. rewrite fold_max_seq. destruct n; lia. Qed.

Lemma saved_nums_other t ev : saved_fig ev = None -> saved_nums (t ++ [ev]) = saved_nums t.
Proof. intros H. unfold saved_nums. now rewrite saved_figs_other. Qed.

Lemma run_figs_inv e : figs_inv (snd (process_gwy_files e init)).
Proof.
  apply (run_invariant figs_inv).
  - exists 0%nat. split; [reflexivity | constructor].
  - intros t o ev Hev (n & Ho & Hs). exists n. cbn [trace open_figs] in *.
    now rewrite saved_nums_other.
  - intros t o (n & Ho & Hs). cbn [trace open_figs] in *. subst o.
    exists (S n). rewrite next_num_seq, seq_S. split; [reflexivity|].
    now apply sublist_inserts_r.
  - intros t o path p ch d lo hi _ _ (n & Ho & Hs). cbn [trace open_figs] in *.
    subst o. exists (S n). rewrite next_num_seq, seq_S. split; [reflexivity|].
    cbn [trace]. unfold saved_nums. rewrite saved_figs_snoc, map_app.
    now apply sublist_app.
Qed.

(** C8, as amended.  Every image is saved from a figure of its own: the
    figures saved in a run have pairwise different numbers.  No figure is
    closed: after the run pyplot still holds every figure it created,
    numbered 1 to n, the saved ones among them. *)
Theorem figures_are_fresh_and_kept e :
  let st := snd (process_gwy_files e init) in
  NoDup (saved_nums (trace st)) /\
  (forall fig, In fig (saved_figs (trace st)) -> In (fig_num fig) (open_figs st)) /\
  open_figs st = seq 1 (length (open_figs st)).
Proof.
  intros st. destruct (run_figs_inv e) as (n & Ho & Hs). fold st in Ho, Hs.
  split; [|split].
  - eapply sublist_NoDup; [apply NoDup_seq | exact Hs].
  - intros fig Hin. rewrite Ho. apply list_elem_of_In.
    apply (sublist_subseteq _ _ Hs). apply list_elem_of_In.
    unfold saved_nums. now apply in_map.
  - rewrite Ho at 1. now rewrite Ho, length_seq.
Qed.

(** C8, as the specification words it, fails: after the run of
    [scans_env] the two figures that were saved are still open. *)
Lemma figures_are_not_released :
  ~ figures_released (snd (process_gwy_files scans_env init)).
Proof.
  intros H. unfold figures_released in H.
  assert (Hopen : open_figs (snd (process_gwy_files scans_env init)) = [1; 2]%nat)
    by (vm_compute; reflexivity).
  destruct (saved_figs (trace (snd (process_gwy_files scans_env init))))
    as [|fig figs] eqn:E; [vm_compute in E; discriminate|].
  apply (H fig); [now left|].
  rewrite Hopen. vm_compute in E. injection E as <- _. now left.
Qed.

(** ** Binary64: the order *)

Lemma SFcompare_refl x : x <> S754_nan -> SFcompare x x = Some Eq.
Proof.
  destruct x as [s|s| |s m e]; intros H; try reflexivity; [now destruct s|contradiction|].
  cbn. rewrite Z.compare_refl.
  change (Pos.compare_cont Eq m m) with (Pos.compare m m). rewrite Pos.compare_refl.
  now destruct s.
Qed.

Lemma SFleb_notnan x y :
  SFleb x y = true -> x <> S754_nan /\ y <> S754_nan.
Proof.
  unfold SFleb. destruct x, y; cbn; try discriminate; intros _; split; discriminate.
Qed.

Ltac cmp_cases :=
  repeat match goal with
  | |- context [Z.compare ?a ?b] => destruct (Z.compare_spec a b)
  | H : context [Z.compare ?a ?b] |- _ => destruct (Z.compare_spec a b)
  | |- context [Pos.compare_cont Eq ?a ?b] =>
      change (Pos.compare_cont Eq a b) with (Pos.compare a b);
      destruct (Pos.compare_spec a b)
  | H : context [Pos.compare_cont Eq ?a ?b] |- _ =>
      change (Pos.compare_cont Eq a b) with (Pos.compare a b) in H;
      destruct (Pos.compare_spec a b)
  end.

Lemma SFleb_trans x y z :
  SFleb x y = true -> SFleb y z = true -> SFleb x z = true.
Proof.
  unfold SFleb.
  destruct x as [sx|sx| |sx mx ex], y as [sy|sy| |sy my ey], z as [sz|sz| |sz mz ez];
    try destruct sx; try destruct sy; try destruct sz; cbn;
    try discriminate; try reflexivity;
    cmp_cases; cbn; try discriminate; try reflexivity; intros; exfalso; lia.
Qed.

Lemma SFleb_total x y :
  x <> S754_nan -> y <> S754_nan -> SFleb x y = false -> SFleb y x = true.
Proof.
  unfold SFleb.
  destruct x as [sx|sx| |sx mx ex], y as [sy|sy| |sy my ey];
    try destruct sx; try destruct sy; cbn;
    try discriminate; try reflexivity; try contradiction;
    cmp_cases; cbn; try discriminate; try reflexivity; intros; exfalso; lia.
Qed.

Lemma is_nan_spec x : is_nan x = true <-> Prim2SF x = S754_nan.
Proof.
  unfold is_nan. rewrite FloatAxioms.eqb_spec. unfold SFeqb. split.
  - destruct (Prim2SF x) as [s|s| |s m e] eqn:E; [| |reflexivity|];
      rewrite SFcompare_refl by discriminate; discriminate.
  - now intros ->.
Qed.

Lemma is_nan_false x : is_nan x = false <-> Prim2SF x <> S754_nan.
Proof.
  rewrite <- is_nan_spec. destruct (is_nan x); split; congruence.
Qed.

Lemma leb_notnan x y :
  (x <=? y)%float = true -> is_nan x = false /\ is_nan y = false.
Proof.
  rewrite FloatAxioms.leb_spec, !is_nan_false. apply SFleb_notnan.
Qed.

Lemma leb_refl x : is_nan x = false -> (x <=? x)%float = true.
Proof.
  rewrite FloatAxioms.leb_spec, is_nan_false. intros H. unfold SFleb.
  now rewrite SFcompare_refl.
Qed.

Lemma leb_trans x y z :
  (x <=? y)%float = true -> (y <=? z)%float = true -> (x <=? z)%float = true.
Proof. rewrite !FloatAxioms.leb_spec. apply SFleb_trans. Qed.

Lemma leb_total x y :
  is_nan x = false -> is_nan y = false ->
  (x <=? y)%float = false -> (y <=? x)%float = true.
Proof. rewrite !FloatAxioms.leb_spec, !is_nan_false. apply SFleb_total. Qed.

(** ** Lowest and highest sample *)

Lemma minimum_pick a b : Np.minimum a b = a \/ Np.minimum a b = b.
Proof. unfold Np.minimum. destruct (_ || _); auto. Qed.

Lemma maximum_pick a b : Np.maximum a b = a \/ Np.maximum a b = b.
Proof. unfold Np.maximum. destruct (_ || _); auto. Qed.

Section Pick.
Variable op : float -> float -> float.
Hypothesis op_pick : forall a b, op a b = a \/ op a b = b.

Lemma fold_op_In (l : list float) x : In (fold_left op l x) (x :: l).
Proof.
  revert x. induction l as [|y l IH]; intros x; cbn; [now left|].
  destruct (IH (op x y)) as [H|H]; [|now right; right].
  rewrite <- H. destruct (op_pick x y) as [->| ->]; auto.
Qed.

Lemma reduce_In (l : list float) m : Np.reduce op l = Some m -> In m l.
Proof.
  destruct l as [|x l]; [discriminate|]. cbn. intros [= <-]. apply fold_op_In.
Qed.

End Pick.

(** Without NaN, [minimum] is the lesser and [maximum] the greater of the
    two. *)
Lemma minimum_le a b :
  is_nan a = false -> is_nan b = false ->
  (Np.minimum a b <=? a)%float = true /\ (Np.minimum a b <=? b)%float = true.
Proof.
  intros Ha Hb. unfold Np.minimum. rewrite Ha, orb_false_r.
  destruct (a <=? b)%float eqn:E.
  - split; [now apply leb_refl | exact E].
  - split; [now apply leb_total | now apply leb_refl].
Qed.

Lemma maximum_ge a b :
  is_nan a = false -> is_nan b = false ->
  (a <=? Np.maximum a b)%float = true /\ (b <=? Np.maximum a b)%float = true.
Proof.
  intros Ha Hb. unfold Np.maximum. rewrite Ha, orb_false_r.
  destruct (b <=? a)%float eqn:E.
  - split; [now apply leb_refl | exact E].
  - split; [now apply leb_total | now apply leb_refl].
Qed.

Lemma fold_minimum_bound (l : list float) x :
  is_nan x = false -> no_nan l ->
  forall y, In y (x :: l) -> (fold_left Np.minimum l x <=? y)%float = true.
Proof.
  revert x. induction l as [|z l IH]; intros x Hx Hl y Hy.
  - destruct Hy as [<-|[]]. now apply leb_refl.
  - inversion Hl as [|? ? Hz Hl']; subst. cbn [fold_left].
    destruct (minimum_le x z Hx Hz) as [H1 H2].
    assert (Hm : is_nan (Np.minimum x z) = false) by now apply leb_notnan in H1.
    destruct Hy as [<-|[<-|Hy]].
    + eapply leb_trans; [|exact H1]. apply IH; auto. now left.
    + eapply leb_trans; [|exact H2]. apply IH; auto. now left.
    + apply IH; auto. now right.
Qed.

Lemma fold_maximum_bound (l : list float) x :
  is_nan x = false -> no_nan l ->
  forall y, In y (x :: l) -> (y <=? fold_left Np.maximum l x)%float = true.
Proof.
  revert x. induction l as [|z l IH]; intros x Hx Hl y Hy.
  - destruct Hy as [<-|[]]. now apply leb_refl.
  - inversion Hl as [|? ? Hz Hl']; subst. cbn [fold_left].
    destruct (maximum_ge x z Hx Hz) as [H1 H2].
    assert (Hm : is_nan (Np.maximum x z) = false) by now apply leb_notnan in H1.
    destruct Hy as [<-|[<-|Hy]].
    + eapply leb_trans; [exact H1|]. apply IH; auto. now left.
    + eapply leb_trans; [exact H2|]. apply IH; auto. now left.
    + apply IH; auto. now right.
Qed.

Lemma reduce_minimum_bound (l : list float) m y :
  no_nan l -> Np.reduce Np.minimum l = Some m -> In y l -> (m <=? y)%float = true.
Proof.
  destruct l as [|x l]; [discriminate|]. intros Hl [= <-] Hy.
  inversion Hl; subst. now apply fold_minimum_bound.
Qed.

Lemma reduce_maximum_bound (l : list float) m y :
  no_nan l -> Np.reduce Np.maximum l = Some m -> In y l -> (y <=? m)%float = true.
Proof.
  destruct l as [|x l]; [discriminate|]. intros Hl [= <-] Hy.
  inversion Hl; subst. now apply fold_maximum_bound.
Qed.

(** ** Binary64: the sign of a difference *)

Section Sign.
Local Open Scope Z_scope.

Lemma digits2_pos_bounds (m : positive) :
  2 ^ (Zpos (digits2_pos m) - 1) <= Zpos m < 2 ^ Zpos (digits2_pos m).
Proof.
  induction m as [m IH|m IH|]; cbn [digits2_pos]; [| |cbn; lia];
    rewrite Pos2Z.inj_succ;
    replace (Z.succ (Zpos (digits2_pos m)) - 1)
      with (Z.succ (Zpos (digits2_pos m) - 1)) by lia;
    rewrite !Z.pow_succ_r by lia;
    set (A := 2 ^ (Zpos (digits2_pos m) - 1)) in *;
    set (B := 2 ^ Zpos (digits2_pos m)) in *; clearbody A B; lia.
Qed.

Lemma iter_xO_value (m d : positive) :
  Zpos (Pos.iter xO m d) = Zpos m * 2 ^ Zpos d.
Proof.
  induction d as [|d IH] using Pos.peano_ind.
  - cbn. lia.
  - rewrite Pos.iter_succ, Pos2Z.inj_xO, IH, Pos2Z.inj_succ, Z.pow_succ_r by lia. lia.
Qed.

(** Aligning a mantissa to a lower exponent multiplies it by the power of
    two in between. *)
Lemma shl_align_value (m : positive) (e e' : Z) :
  e' <= e -> Zpos (fst (shl_align m e e')) = Zpos m * 2 ^ (e - e').
Proof.
  intros Hle. unfold shl_align. destruct (e' - e) as [|d|d] eqn:E.
  - replace (e - e') with 0 by lia. cbn [fst]. lia.
  - lia.
  - cbn [fst]. rewrite iter_xO_value. f_equal. f_equal. lia.
Qed.

(** What [valid_binary] says of a mantissa and its exponent. *)
Lemma bounded_inv (m : positive) (e : Z) :
  bounded prec emax m e = true ->
  -1074 <= e /\ Zpos (digits2_pos m) <= 53 /\
  (-1074 < e -> Zpos (digits2_pos m) = 53).
Proof.
  unfold bounded, canonical_mantissa, fexp, SpecFloat.emin, prec, emax.
  intros H. apply andb_true_iff in H as [H _]. apply Z.eqb_eq in H. lia.
Qed.

(** Of two valid numbers of the same sign the one with the higher
    exponent has the larger aligned mantissa. *)
Lemma higher_exponent_larger (m1 m2 : positive) (e1 e2 : Z) :
  bounded prec emax m1 e1 = true -> bounded prec emax m2 e2 = true ->
  e1 < e2 ->
  Zpos m1 < Zpos m2 * 2 ^ (e2 - e1).
Proof.
  intros H1 H2 Hlt.
  destruct (bounded_inv m1 e1 H1) as (He1 & Hd1 & _).
  destruct (bounded_inv m2 e2 H2) as (_ & _ & Hd2).
  specialize (Hd2 ltac:(lia)).
  pose proof (digits2_pos_bounds m1) as [_ Hm1].
  pose proof (digits2_pos_bounds m2) as [Hm2 _]. rewrite Hd2 in Hm2.
  assert (Hp1 : 2 ^ Zpos (digits2_pos m1) <= 2 ^ 53)
    by (apply Z.pow_le_mono_r; lia).
  assert (Hp2 : 2 ^ 1 <= 2 ^ (e2 - e1)) by (apply Z.pow_le_mono_r; lia).
  change (2 ^ (53 - 1)) with 4503599627370496 in Hm2.
  change (2 ^ 53) with 9007199254740992 in Hp1.
  change (2 ^ 1) with 2 in Hp2. nia.
Qed.

Lemma iter_pos_preserves {X} (P : X -> Prop) (f : X -> X) :
  (forall x, P x -> P (f x)) -> forall n x, P x -> P (SpecFloat.iter_pos f n x).
Proof.
  intros Hf n. induction n as [n IH|n IH|]; intros x Hx; cbn; auto.
Qed.

Lemma shr_1_nonneg mrs : 0 <= shr_m mrs -> 0 <= shr_m (shr_1 mrs).
Proof.
  destruct mrs as [m r s]. cbn [shr_m]. intros H.
  destruct m as [|[p|p|]|p]; cbn; lia.
Qed.

Lemma shr_fexp_nonneg m e l :
  0 <= m -> 0 <= shr_m (fst (shr_fexp prec emax m e l)).
Proof.
  intros H. unfold shr_fexp, shr.
  assert (H0 : 0 <= shr_m (shr_record_of_loc m l)).
  { destruct l as [|[| |]]; exact H. }
  destruct (_ - e) as [|p|p]; cbn [fst]; [exact H0| |exact H0].
  apply (iter_pos_preserves (fun mrs => 0 <= shr_m mrs)); [|exact H0].
  apply shr_1_nonneg.
Qed.

Lemma round_nearest_even_nonneg m l : 0 <= m -> 0 <= round_nearest_even m l.
Proof.
  intros H. unfold round_nearest_even.
  destruct l as [|[| |]]; [lia| |lia|lia]. destruct (Z.even m); lia.
Qed.

Lemma binary_round_aux_signed sx mx ex lx :
  0 <= mx -> signed sx (binary_round_aux prec emax sx mx ex lx).
Proof.
  intros H. unfold binary_round_aux.
  pose proof (shr_fexp_nonneg mx ex lx H) as H1.
  destruct (shr_fexp prec emax mx ex lx) as [mrs' e'] eqn:E1. cbn [fst] in H1.
  pose proof (shr_fexp_nonneg _ e' loc_Exact
                (round_nearest_even_nonneg _ (loc_of_shr_record mrs') H1)) as H2.
  destruct (shr_fexp prec emax _ e' loc_Exact) as [mrs'' e''] eqn:E2. cbn [fst] in H2.
  destruct (shr_m mrs'') as [|p|p]; [reflexivity| |lia].
  destruct (e'' <=? emax - prec); reflexivity.
Qed.

Lemma binary_normalize_nonneg d e :
  0 <= d -> signed false (binary_normalize prec emax d e false).
Proof.
  intros H. destruct d as [|p|p]; [reflexivity| |lia].
  cbn [binary_normalize]. unfold binary_round.
  destruct (shl_align p e _) as [mz ez]. now apply binary_round_aux_signed.
Qed.

Lemma signed_nonneg r : signed false r -> SFnonneg r.
Proof. destruct r as [s|s| |s m e]; cbn; try tauto; now intros ->. Qed.

Lemma SFsub_nonneg x m :
  SFfinite x -> SFfinite m -> SFleb m x = true -> SFnonneg (SF64sub x m).
Proof.
  unfold SFleb, SF64sub.
  destruct x as [sx| | |sx mx ex], m as [sm| | |sm mm em]; try contradiction;
    intros Hx Hm.
  - intros _. destruct sx, sm; exact I.
  - destruct sm; cbn; [intros _; exact I | discriminate].
  - destruct sx; cbn; [discriminate | intros _; exact I].
  - cbn [SFcompare SFsub SFfinite] in *. intros Hle.
    apply signed_nonneg, binary_normalize_nonneg.
    rewrite !shl_align_value by lia.
    assert (Hpow : forall a, 0 < 2 ^ (a - Z.min ex em) \/ a < Z.min ex em)
      by (intros a; destruct (Z_lt_le_dec a (Z.min ex em)); [now right|left; apply Z.pow_pos_nonneg; lia]).
    destruct sx, sm; cbn [cond_Zopp]; try discriminate.
    + (* both negative *)
      destruct (Z.compare_spec em ex) as [E|E|E]; try discriminate.
      * subst em. rewrite Z.min_id, Z.sub_diag. change (2 ^ 0) with 1.
        change (Pos.compare_cont Eq mm mx) with (Pos.compare mm mx) in Hle.
        destruct (Pos.compare_spec mm mx); cbn in Hle; try discriminate; lia.
      * pose proof (higher_exponent_larger mx mm ex em Hx Hm E).
        rewrite Z.min_l by lia. rewrite Z.sub_diag. change (2 ^ 0) with 1. lia.
    + (* x positive, m negative *)
      destruct (Hpow ex), (Hpow em); lia.
    + (* both positive *)
      destruct (Z.compare_spec em ex) as [E|E|E]; try discriminate.
      * subst em. rewrite Z.min_id, Z.sub_diag. change (2 ^ 0) with 1.
        change (Pos.compare_cont Eq mm mx) with (Pos.compare mm mx) in Hle.
        destruct (Pos.compare_spec mm mx); cbn in Hle; try discriminate; lia.
      * pose proof (higher_exponent_larger mm mx em ex Hm Hx E).
        rewrite Z.min_r by lia. rewrite Z.sub_diag. change (2 ^ 0) with 1. lia.
Qed.

Lemma SFsub_diag m :
  SFfinite m -> exists s, SF64sub m m = S754_zero s.
Proof.
  unfold SF64sub. destruct m as [s| | |s mm em]; try contradiction; intros _.
  - exists false. now destruct s.
  - exists false. cbn [SFsub]. now rewrite Z.sub_diag.
Qed.

End Sign.

(** ** Binary64: rounding and the order *)

Section Rounding.
Local Open Scope Z_scope.

Lemma rne_cases V g :
  rne V g = V / g * g \/ rne V g = (V / g + 1) * g.
Proof.
  unfold rne. destruct (_ <? _); [now left|].
  destruct (_ <? _); [now right|]. destruct (Z.even _); auto.
Qed.

Lemma rne_exact V g : 0 < g -> V mod g = 0 -> rne V g = V.
Proof.
  intros Hg Hr. unfold rne. rewrite Hr.
  replace (2 * 0 <? g) with true by (symmetry; apply Z.ltb_lt; lia).
  pose proof (Z.div_mod V g ltac:(lia)). lia.
Qed.

Lemma rne_ge_grid V g T : 0 < g -> T mod g = 0 -> T <= V -> T <= rne V g.
Proof.
  intros Hg HT Hle.
  assert (Hq : T / g <= V / g) by (apply Z.div_le_mono; lia).
  pose proof (Z.div_mod T g ltac:(lia)) as HTd. rewrite HT in HTd.
  destruct (rne_cases V g) as [-> | ->]; nia.
Qed.

Lemma rne_le_grid V g T : 0 < g -> T mod g = 0 -> V <= T -> rne V g <= T.
Proof.
  intros Hg HT Hle.
  destruct (Z.eq_dec (V mod g) 0) as [E|E]; [now rewrite rne_exact|].
  pose proof (Z.div_mod T g ltac:(lia)) as HTd. rewrite HT in HTd.
  pose proof (Z.div_mod V g ltac:(lia)) as HVd.
  pose proof (Z.mod_pos_bound V g Hg) as HVb.
  assert (Hq : V / g < T / g) by nia.
  destruct (rne_cases V g) as [-> | ->]; nia.
Qed.

Lemma rne_mono V1 V2 g : 0 < g -> V1 <= V2 -> rne V1 g <= rne V2 g.
Proof.
  intros Hg Hle.
  assert (Hq : V1 / g <= V2 / g) by (apply Z.div_le_mono; lia).
  pose proof (Z.div_mod V1 g ltac:(lia)) as H1.
  pose proof (Z.div_mod V2 g ltac:(lia)) as H2.
  pose proof (Z.mod_pos_bound V1 g Hg) as B1.
  pose proof (Z.mod_pos_bound V2 g Hg) as B2.
  destruct (Z.eq_dec (V1 / g) (V2 / g)) as [E|E].
  - unfold rne. rewrite E.
    assert (Hr : V1 mod g <= V2 mod g) by nia.
    destruct (2 * (V1 mod g) <? g) eqn:A1, (2 * (V2 mod g) <? g) eqn:A2,
             (g <? 2 * (V1 mod g)) eqn:C1, (g <? 2 * (V2 mod g)) eqn:C2,
             (Z.even (V2 / g));
      rewrite ?Z.ltb_lt, ?Z.ltb_ge in *; nia.
  - apply Z.le_trans with (V2 / g * g).
    + apply rne_le_grid; [lia | apply Z.mod_mul; lia | nia].
    + apply rne_ge_grid; [lia | apply Z.mod_mul; lia | nia].
Qed.

Lemma rne_scale V g c : 0 < g -> 0 < c -> rne (V * c) (g * c) = rne V g * c.
Proof.
  intros Hg Hc. unfold rne.
  rewrite Z.div_mul_cancel_r by lia.
  rewrite Z.mul_mod_distr_r by lia.
  replace (2 * (V mod g * c) <? g * c) with (2 * (V mod g) <? g).
  2:{ destruct (2 * (V mod g) <? g) eqn:A; symmetry;
      [apply Z.ltb_lt; apply Z.ltb_lt in A | apply Z.ltb_ge; apply Z.ltb_ge in A]; nia. }
  replace (g * c <? 2 * (V mod g * c)) with (g <? 2 * (V mod g)).
  2:{ destruct (g <? 2 * (V mod g)) eqn:A; symmetry;
      [apply Z.ltb_lt; apply Z.ltb_lt in A | apply Z.ltb_ge; apply Z.ltb_ge in A]; nia. }
  destruct (_ <? _); [lia|]. destruct (_ <? _); [lia|]. destruct (Z.even _); lia.
Qed.

Lemma pow2_divides a b : 0 <= b <= a -> 2 ^ a mod 2 ^ b = 0.
Proof.
  intros H. replace a with ((a - b) + b) by lia.
  rewrite Z.pow_add_r by lia. apply Z.mod_mul. apply Z.pow_nonzero; lia.
Qed.

Lemma gexp_mono K W1 W2 : W1 <= W2 -> gexp K W1 <= gexp K W2.
Proof.
  intros H. unfold gexp. pose proof (Z.log2_le_mono W1 W2 H). lia.
Qed.

Lemma round_mono K W1 W2 :
  0 <= K -> 0 <= W1 <= W2 -> round K W1 <= round K W2.
Proof.
  intros HK [H0 Hle]. unfold round.
  pose proof (gexp_mono K W1 W2 Hle) as Hg.
  assert (HgK1 : K <= gexp K W1) by (unfold gexp; lia).
  destruct (Z.eq_dec (gexp K W1) (gexp K W2)) as [E|E].
  - rewrite E. apply rne_mono; [apply Z.pow_pos_nonneg; lia | exact Hle].
  - assert (Hlt : gexp K W1 < gexp K W2) by lia.
    assert (HW2 : 0 < W2).
    { destruct (Z.eq_dec W2 0) as [->|]; [|lia].
      assert (W1 = 0) by lia. subst. lia. }
    assert (Hg2 : gexp K W2 = Z.log2 W2 + 1 - 53) by (unfold gexp in *; lia).
    assert (Hlog : Z.log2 W1 < Z.log2 W2) by (unfold gexp in *; lia).
    pose proof (Z.log2_spec W2 HW2) as [HT _].
    assert (HW1T : W1 <= 2 ^ Z.log2 W2).
    { destruct (Z.eq_dec W1 0) as [->|]; [apply Z.pow_nonneg; lia|].
      pose proof (Z.log2_spec W1 ltac:(lia)) as [_ HU].
      apply Z.le_trans with (2 ^ Z.succ (Z.log2 W1)); [lia|].
      apply Z.pow_le_mono_r; lia. }
    apply Z.le_trans with (2 ^ Z.log2 W2).
    + apply rne_le_grid; [apply Z.pow_pos_nonneg; lia | apply pow2_divides; lia | exact HW1T].
    + apply rne_ge_grid; [apply Z.pow_pos_nonneg; lia | apply pow2_divides; lia | exact HT].
Qed.

Lemma round_0 K : 0 <= K -> round K 0 = 0.
Proof.
  intros HK. unfold round. apply rne_exact; [apply Z.pow_pos_nonneg; unfold gexp; lia|].
  apply Z.mod_0_l. apply Z.pow_nonzero; unfold gexp; lia.
Qed.

Lemma round_nonneg K W : 0 <= K -> 0 <= W -> 0 <= round K W.
Proof.
  intros HK HW. rewrite <- (round_0 K HK). apply round_mono; lia.
Qed.

Lemma iter_pos_nat {X} (f : X -> X) p x :
  SpecFloat.iter_pos f p x = Nat.iter (Pos.to_nat p) f x.
Proof.
  revert x. induction p as [p IH|p IH|]; intros x; cbn [SpecFloat.iter_pos].
  - rewrite !IH, Pos2Nat.inj_xI.
    replace (S (2 * Pos.to_nat p))%nat with (Pos.to_nat p + (Pos.to_nat p + 1))%nat by lia.
    rewrite !Nat.iter_add. reflexivity.
  - rewrite !IH, Pos2Nat.inj_xO.
    replace (2 * Pos.to_nat p)%nat with (Pos.to_nat p + Pos.to_nat p)%nat by lia.
    rewrite Nat.iter_add. reflexivity.
  - reflexivity.
Qed.

Lemma shr_1_spec m r s :
  0 <= m ->
  shr_1 (Build_shr_record m r s) = Build_shr_record (m / 2) (Z.odd m) (r || s).
Proof.
  intros H. rewrite <- Z.div2_div. destruct m as [|[p|p|]|p]; try reflexivity. lia.
Qed.

Lemma shr_iter M n :
  0 <= M ->
  exists r s,
    Nat.iter n shr_1 (Build_shr_record M false false) =
      Build_shr_record (M / 2 ^ Z.of_nat n) r s /\
    (r || s = false <-> M mod 2 ^ Z.of_nat n = 0).
Proof.
  intros HM. induction n as [|n (r & s & E & H)].
  - exists false, false. cbn [Nat.iter Z.of_nat]. rewrite Z.pow_0_r, Z.div_1_r, Z.mod_1_r. tauto.
  - exists (Z.odd (M / 2 ^ Z.of_nat n)), (r || s).
    assert (Hg : 0 < 2 ^ Z.of_nat n) by (apply Z.pow_pos_nonneg; lia).
    rewrite Nat.iter_succ, E, shr_1_spec by (apply Z.div_pos; lia).
    rewrite Nat2Z.inj_succ, Z.pow_succ_r by lia.
    rewrite (Z.mul_comm 2), Z.div_div by lia. split; [reflexivity|].
    rewrite Z.rem_mul_r, Zmod_odd by lia.
    pose proof (Z.mod_pos_bound M (2 ^ Z.of_nat n) Hg).
    destruct (Z.odd _), (r || s); cbn; split; intros; try discriminate; try lia;
      try (exfalso; intuition lia); intuition lia.
Qed.

Lemma rne_decomp q o r0 g :
  0 < g -> 0 <= r0 < g -> o = 0 \/ o = 1 ->
  rne ((2 * q + o) * g + r0) (2 * g) =
    (if o =? 0 then q else if 0 <? r0 then q + 1 else if Z.even q then q else q + 1) * (2 * g).
Proof.
  intros Hg Hr Ho. unfold rne.
  assert (Hd : ((2 * q + o) * g + r0) / (2 * g) = q).
  { symmetry. apply (Z.div_unique_pos _ _ q (o * g + r0)); nia. }
  assert (Hm : ((2 * q + o) * g + r0) mod (2 * g) = o * g + r0).
  { symmetry. apply (Z.mod_unique_pos _ _ q (o * g + r0)); nia. }
  rewrite Hd, Hm.
  destruct Ho as [-> | ->]; cbn [Z.eqb].
  - replace (2 * (0 * g + r0) <? 2 * g) with true by (symmetry; apply Z.ltb_lt; lia).
    reflexivity.
  - replace (2 * (1 * g + r0) <? 2 * g) with false by (symmetry; apply Z.ltb_ge; lia).
    destruct (0 <? r0) eqn:E.
    + apply Z.ltb_lt in E.
      replace (2 * g <? 2 * (1 * g + r0)) with true by (symmetry; apply Z.ltb_lt; lia).
      reflexivity.
    + apply Z.ltb_ge in E.
      replace (2 * g <? 2 * (1 * g + r0)) with false by (symmetry; apply Z.ltb_ge; lia).
      now destruct (Z.even q).
Qed.

(** Shifting a mantissa right by [n] bits and rounding on what was shifted
    out rounds the mantissa to the nearest multiple of [2 ^ n]. *)
Lemma shr_round M e n :
  0 <= M -> 0 <= n ->
  let mrs := fst (shr (Build_shr_record M false false) e n) in
  round_nearest_even (shr_m mrs) (loc_of_shr_record mrs) * 2 ^ n = rne M (2 ^ n) /\
  snd (shr (Build_shr_record M false false) e n) = e + n.
Proof.
  intros HM Hn. destruct n as [|p|p]; [| |lia].
  - cbn [shr fst snd shr_m loc_of_shr_record round_nearest_even].
    rewrite Z.pow_0_r, rne_exact by (try apply Z.mod_1_r; lia). lia.
  - cbn [shr fst snd]. split; [|reflexivity].
    rewrite iter_pos_nat.
    destruct (Pos.to_nat p) as [|k] eqn:Ek; [lia|].
    assert (Hp : Zpos p = Z.succ (Z.of_nat k)) by lia.
    rewrite Hp, Z.pow_succ_r by lia.
    destruct (shr_iter M k HM) as (r & s & E & H).
    assert (Hg : 0 < 2 ^ Z.of_nat k) by (apply Z.pow_pos_nonneg; lia).
    rewrite Nat.iter_succ, E, shr_1_spec by (apply Z.div_pos; lia).
    set (g := 2 ^ Z.of_nat k) in *.
    pose proof (Z.div_mod M g ltac:(lia)) as HMd.
    pose proof (Z.mod_pos_bound M g Hg) as HMb.
    pose proof (Z.div_mod (M / g) 2 ltac:(lia)) as Hqd.
    assert (Ho : (M / g) mod 2 = 0 \/ (M / g) mod 2 = 1)
      by (pose proof (Z.mod_pos_bound (M / g) 2 ltac:(lia)); lia).
    replace (rne M (2 * g))
      with (rne ((2 * (M / g / 2) + (M / g) mod 2) * g + M mod g) (2 * g))
      by (f_equal; rewrite <- Hqd; lia).
    rewrite rne_decomp by assumption.
    rewrite Zmod_odd. cbn [shr_m].
    destruct (Z.odd (M / g)) eqn:Eo; cbn [Z.eqb].
    + destruct (r || s) eqn:Eb.
      * assert (Hr : 0 < M mod g) by (destruct (Z.eq_dec (M mod g) 0); [intuition congruence|lia]).
        apply Z.ltb_lt in Hr. rewrite Hr. reflexivity.
      * assert (Hr : M mod g = 0) by tauto. rewrite Hr. cbn [Z.ltb Z.compare].
        reflexivity.
    + destruct (r || s); reflexivity.
Qed.

Lemma digits2_log2 (m : positive) : Z.log2 (Zpos m) = Zpos (digits2_pos m) - 1.
Proof.
  apply Z.log2_unique; [lia|].
  replace (Z.succ (Zpos (digits2_pos m) - 1)) with (Zpos (digits2_pos m)) by lia.
  apply digits2_pos_bounds.
Qed.

Lemma Top_split a b : 0 <= a -> 0 <= b -> a + b = 2098 -> Top = 2 ^ a * 2 ^ b.
Proof. intros Ha Hb H. unfold Top. rewrite <- Z.pow_add_r, H by lia. reflexivity. Qed.

Lemma pow2_pos a : 0 <= a -> 0 < 2 ^ a.
Proof. intros. apply Z.pow_pos_nonneg; lia. Qed.

(** The last step of a rounding: a mantissa of 53 bits or the power of two
    just above, with its exponent, becomes a number. *)
Lemma rounded_value s Q F :
  -1074 <= F -> 0 <= Q <= 2 ^ 53 -> (971 < F -> 2 ^ 52 <= Q) ->
  absval
    (let '(mrs, e) := shr_fexp prec emax Q F loc_Exact in
     match shr_m mrs with
     | 0 => S754_zero s
     | Zpos m => if e <=? emax - prec then S754_finite s m e else S754_infinity s
     | Zneg _ => S754_nan
     end) = Z.min (Q * 2 ^ (F + 1074)) Top.
Proof.
  intros HF [HQ0 HQ] Hnorm.
  assert (HP : 0 < 2 ^ (F + 1074)) by (apply pow2_pos; lia).
  unfold shr_fexp. cbn [shr_record_of_loc].
  destruct (Z.eq_dec Q (2 ^ 53)) as [->|Hne].
  - (* the mantissa has carried into a 54th bit *)
    replace (fexp prec emax (Zdigits2 (2 ^ 53) + F) - F) with 1
      by (change (Zdigits2 (2 ^ 53)) with 54; unfold fexp, SpecFloat.emin, prec, emax; lia).
    cbn [shr SpecFloat.iter_pos]. rewrite shr_1_spec by lia.
    change (2 ^ 53 / 2) with (Zpos (2 ^ 52)%positive). cbn [shr_m].
    unfold emax, prec. change (1024 - 53) with 971.
    replace (F + 1 + 1074) with (Z.succ (F + 1074)) by lia.
    destruct (F + 1 <=? 971) eqn:E; [apply Z.leb_le in E | apply Z.leb_gt in E]; cbn [absval].
    + replace (F + 1 + 1074) with (Z.succ (F + 1074)) by lia.
      rewrite Z.pow_succ_r by lia.
      assert (2 ^ (F + 1074) <= 2 ^ 2044) by (apply Z.pow_le_mono_r; lia).
      rewrite (Top_split 54 2044) by lia.
      change (2 ^ 53) with 9007199254740992. change (2 ^ 54) with 18014398509481984.
      change (Zpos (2 ^ 52)%positive) with 4503599627370496.
      set (A := 2 ^ (F + 1074)) in *. set (B := 2 ^ 2044) in *. clearbody A B. lia.
    + assert (2 ^ 2045 <= 2 ^ (F + 1074)) by (apply Z.pow_le_mono_r; lia).
      rewrite (Top_split 53 2045) by lia.
      set (A := 2 ^ (F + 1074)) in *. set (B := 2 ^ 2045) in *.
      change (2 ^ 53) with 9007199254740992. clearbody A B. nia.
  - (* the mantissa fits *)
    assert (Hshift : fexp prec emax (Zdigits2 Q + F) - F <= 0).
    { unfold fexp, SpecFloat.emin, prec, emax. destruct Q as [|q|q]; [cbn; lia| |lia].
      cbn [Zdigits2]. pose proof (digits2_pos_bounds q) as [Hq _].
      assert (Zpos (digits2_pos q) <= 53); [|lia].
      destruct (Z_le_gt_dec (Zpos (digits2_pos q)) 53) as [|Hgt]; [assumption|exfalso].
      assert (2 ^ 53 <= 2 ^ (Zpos (digits2_pos q) - 1)) by (apply Z.pow_le_mono_r; lia).
      lia. }
    assert (Hshr : shr {| shr_m := Q; shr_r := false; shr_s := false |} F
                     (fexp prec emax (Zdigits2 Q + F) - F) =
                   ({| shr_m := Q; shr_r := false; shr_s := false |}, F)).
    { destruct (fexp prec emax (Zdigits2 Q + F) - F); [reflexivity|lia|reflexivity]. }
    rewrite Hshr. cbn [shr_m].
    destruct Q as [|q|q]; [cbn [absval]; rewrite Z.mul_0_l; unfold Top; symmetry; apply Z.min_l; apply Z.pow_nonneg; lia | | lia].
    unfold emax, prec. change (1024 - 53) with 971.
    destruct (F <=? 971) eqn:E; [apply Z.leb_le in E | apply Z.leb_gt in E]; cbn [absval].
    + assert (2 ^ (F + 1074) <= 2 ^ 2045) by (apply Z.pow_le_mono_r; lia).
      rewrite (Top_split 53 2045) by lia.
      set (A := 2 ^ (F + 1074)) in *. set (B := 2 ^ 2045) in *.
      change (2 ^ 53) with 9007199254740992 in *. clearbody A B. nia.
    + assert (2 ^ 2046 <= 2 ^ (F + 1074)) by (apply Z.pow_le_mono_r; lia).
      specialize (Hnorm ltac:(lia)).
      rewrite (Top_split 52 2046) by lia.
      set (A := 2 ^ (F + 1074)) in *. set (B := 2 ^ 2046) in *.
      assert (0 < B) by (apply pow2_pos; lia).
      change (2 ^ 52) with 4503599627370496 in *. clearbody A B. nia.
Qed.

(** Rounding an aligned mantissa: the number that comes out is the
    mantissa's value rounded on the grid of its binade, or infinity when
    that is past the largest number. *)
Lemma binary_round_aux_value s (M : positive) E K :
  0 <= K -> 0 <= E + 1074 + K ->
  E <= fexp prec emax (Zpos (digits2_pos M) + E) ->
  absval (binary_round_aux prec emax s (Zpos M) E loc_Exact) * 2 ^ K =
    Z.min (round K (Zpos M * 2 ^ (E + 1074 + K))) (Top * 2 ^ K).
Proof.
  intros HK HE Hal.
  pose proof (digits2_pos_bounds M) as [HMlo HMhi].
  pose proof (digits2_log2 M) as Hlog.
  set (d := Zpos (digits2_pos M)) in *.
  assert (HF : fexp prec emax (d + E) = Z.max (d + E - 53) (-1074)) by reflexivity.
  set (F := fexp prec emax (d + E)) in *.
  set (n := F - E).
  assert (Hn : 0 <= n) by (unfold n; lia).
  assert (Hg : 0 < 2 ^ n) by (apply pow2_pos; lia).
  destruct (shr_round (Zpos M) E n) as [HQ He]; [lia|lia|].
  unfold binary_round_aux. unfold shr_fexp at 1.
  cbn [shr_record_of_loc Zdigits2]. fold d F n.
  destruct (shr {| shr_m := Zpos M; shr_r := false; shr_s := false |} E n)
    as [mrs' e'] eqn:Es.
  cbn [fst snd] in HQ, He. subst e'. replace (E + n) with F by (unfold n; lia).
  set (Q := round_nearest_even (shr_m mrs') (loc_of_shr_record mrs')) in *.
  assert (HQ0 : 0 <= Q).
  { assert (0 <= rne (Zpos M) (2 ^ n))
      by (apply rne_ge_grid; [lia | apply Z.mod_0_l; lia | lia]).
    nia. }
  assert (HQ53 : Q <= 2 ^ 53).
  { assert (rne (Zpos M) (2 ^ n) <= 2 ^ (53 + n)).
    { apply rne_le_grid; [lia | apply pow2_divides; lia |].
      apply Z.le_trans with (2 ^ d); [lia|]. apply Z.pow_le_mono_r; unfold n; lia. }
    rewrite Z.pow_add_r in H by lia. nia. }
  assert (HQ52 : 971 < F -> 2 ^ 52 <= Q).
  { intros Hbig.
    assert (Hd : d - 1 = 52 + n) by (unfold n; lia).
    assert (2 ^ (52 + n) <= rne (Zpos M) (2 ^ n)).
    { apply rne_ge_grid; [lia | apply pow2_divides; lia | rewrite <- Hd; lia]. }
    rewrite Z.pow_add_r in H by lia. nia. }
  rewrite rounded_value by lia.
  rewrite <- Z.mul_min_distr_nonneg_r by (apply Z.pow_nonneg; lia).
  f_equal. unfold round.
  assert (Hge : gexp K (Zpos M * 2 ^ (E + 1074 + K)) = n + (E + 1074 + K)).
  { unfold gexp. rewrite Z.log2_mul_pow2, Hlog by lia. unfold n. lia. }
  rewrite Hge, (Z.pow_add_r 2 n (E + 1074 + K)) by lia.
  rewrite rne_scale by (try apply pow2_pos; lia).
  rewrite <- HQ, <- !Z.mul_assoc, <- !Z.pow_add_r by lia.
  f_equal. f_equal. unfold n. lia.
Qed.

Lemma Top_pos : 0 < Top.
Proof. apply pow2_pos. lia. Qed.

(** A valid mantissa and exponent stand for a number above zero and below
    the overflow threshold. *)
Lemma bounded_value (m : positive) (e : Z) :
  bounded prec emax m e = true -> 0 < Zpos m * 2 ^ (e + 1074) < Top.
Proof.
  intros H. destruct (bounded_inv m e H) as (He & Hd & _).
  unfold bounded in H. apply andb_true_iff in H as [_ H]. apply Z.leb_le in H.
  unfold emax, prec in H.
  pose proof (digits2_pos_bounds m) as [_ Hm].
  assert (Hp1 : 2 ^ Zpos (digits2_pos m) <= 2 ^ 53) by (apply Z.pow_le_mono_r; lia).
  assert (Hp2 : 2 ^ (e + 1074) <= 2 ^ 2045) by (apply Z.pow_le_mono_r; lia).
  assert (Hp3 : 0 < 2 ^ (e + 1074)) by (apply pow2_pos; lia).
  rewrite (Top_split 53 2045) by lia.
  set (A := 2 ^ (e + 1074)) in *. set (B := 2 ^ 2045) in *.
  set (C := 2 ^ 53) in *. clearbody A B C. nia.
Qed.

Lemma compare_finite (m1 m2 : positive) (e1 e2 : Z) :
  bounded prec emax m1 e1 = true -> bounded prec emax m2 e2 = true ->
  match e1 ?= e2 with
  | Eq => Pos.compare_cont Eq m1 m2
  | Lt => Lt
  | Gt => Gt
  end = (Zpos m1 * 2 ^ (e1 + 1074) ?= Zpos m2 * 2 ^ (e2 + 1074)).
Proof.
  intros H1 H2.
  destruct (bounded_inv m1 e1 H1) as (He1 & _).
  destruct (bounded_inv m2 e2 H2) as (He2 & _).
  destruct (Z.compare_spec e1 e2) as [E|E|E]; symmetry.
  - subst e2. assert (0 < 2 ^ (e1 + 1074)) by (apply pow2_pos; lia).
    set (A := 2 ^ (e1 + 1074)) in *. clearbody A.
    change (Pos.compare_cont Eq m1 m2) with (Pos.compare m1 m2).
    destruct (Pos.compare_spec m1 m2);
      [apply Z.compare_eq_iff | apply Z.compare_lt_iff | apply Z.compare_gt_iff]; nia.
  - apply Z.compare_lt_iff.
    pose proof (higher_exponent_larger m1 m2 e1 e2 H1 H2 E) as Hlt.
    replace (e2 + 1074) with ((e2 - e1) + (e1 + 1074)) by lia.
    rewrite (Z.pow_add_r 2 (e2 - e1)) by lia.
    assert (0 < 2 ^ (e1 + 1074)) by (apply pow2_pos; lia).
    set (A := 2 ^ (e1 + 1074)) in *. set (B := 2 ^ (e2 - e1)) in *. clearbody A B. nia.
  - apply Z.compare_gt_iff.
    pose proof (higher_exponent_larger m2 m1 e2 e1 H2 H1 E) as Hlt.
    replace (e1 + 1074) with ((e1 - e2) + (e2 + 1074)) by lia.
    rewrite (Z.pow_add_r 2 (e1 - e2)) by lia.
    assert (0 < 2 ^ (e2 + 1074)) by (apply pow2_pos; lia).
    set (A := 2 ^ (e2 + 1074)) in *. set (B := 2 ^ (e1 - e2)) in *. clearbody A B. nia.
Qed.

(** Valid numbers compare as their values do. *)
Lemma SFcompare_val a b :
  valid_binary a = true -> valid_binary b = true ->
  a <> S754_nan -> b <> S754_nan ->
  SFcompare a b = Some (val a ?= val b).
Proof.
  pose proof Top_pos as HT.
  destruct a as [sa|sa| |sa ma ea], b as [sb|sb| |sb mb eb];
    cbn [valid_binary SpecFloat.valid_binary val SFcompare]; intros Ha Hb Hna Hnb;
    try contradiction;
    try pose proof (bounded_value ma ea Ha) as Hva;
    try pose proof (bounded_value mb eb Hb) as Hvb.
  - reflexivity.
  - f_equal. symmetry. destruct sb; cbn [cond_Zopp];
      [apply Z.compare_gt_iff | apply Z.compare_lt_iff]; lia.
  - f_equal. symmetry. destruct sb; cbn [cond_Zopp];
      [apply Z.compare_gt_iff | apply Z.compare_lt_iff]; lia.
  - f_equal. symmetry. destruct sa; cbn [cond_Zopp];
      [apply Z.compare_lt_iff | apply Z.compare_gt_iff]; lia.
  - f_equal. symmetry. destruct sa, sb; cbn [cond_Zopp];
      first [apply Z.compare_eq_iff | apply Z.compare_lt_iff | apply Z.compare_gt_iff]; lia.
  - f_equal. symmetry. destruct sa; cbn [cond_Zopp];
      [apply Z.compare_lt_iff | apply Z.compare_gt_iff]; destruct sb; cbn [cond_Zopp]; lia.
  - f_equal. symmetry. destruct sa; cbn [cond_Zopp];
      [apply Z.compare_lt_iff | apply Z.compare_gt_iff]; lia.
  - f_equal. symmetry. destruct sb; cbn [cond_Zopp];
      [apply Z.compare_gt_iff | apply Z.compare_lt_iff]; destruct sa; cbn [cond_Zopp]; lia.
  - f_equal. destruct sa, sb; cbn [cond_Zopp].
    + rewrite Z.compare_opp, (Z.compare_antisym (Zpos ma * _)), <- compare_finite by assumption.
      destruct (ea ?= eb); reflexivity.
    + symmetry. apply Z.compare_lt_iff. lia.
    + symmetry. apply Z.compare_gt_iff. lia.
    + now apply compare_finite.
Qed.

Lemma SFleb_val a b :
  valid_binary a = true -> valid_binary b = true ->
  a <> S754_nan -> b <> S754_nan ->
  SFleb a b = (val a <=? val b).
Proof.
  intros Ha Hb Hna Hnb. unfold SFleb, Z.leb.
  rewrite SFcompare_val by assumption. now destruct (val a ?= val b).
Qed.

Lemma SFeqb_val a b :
  valid_binary a = true -> valid_binary b = true ->
  a <> S754_nan -> b <> S754_nan ->
  SFeqb a b = (val a =? val b).
Proof.
  intros Ha Hb Hna Hnb. unfold SFeqb.
  rewrite SFcompare_val by assumption.
  destruct (Z.compare_spec (val a) (val b)) as [E|E|E]; symmetry;
    [apply Z.eqb_eq | apply Z.eqb_neq | apply Z.eqb_neq]; lia.
Qed.

Lemma val_signed s r : signed s r -> val r = cond_Zopp s (absval r).
Proof.
  destruct r as [s'|s'| |s' m e]; cbn; intros H; try contradiction; subst;
    try reflexivity. now destruct s.
Qed.

Lemma val_bounds a : valid_binary a = true -> - Top <= val a <= Top.
Proof.
  pose proof Top_pos.
  destruct a as [s|s| |s m e]; cbn [val valid_binary SpecFloat.valid_binary]; intros Hv; try lia.
  - destruct s; cbn [cond_Zopp]; lia.
  - pose proof (bounded_value m e Hv). destruct s; cbn [cond_Zopp]; lia.
Qed.

Lemma sround_0 K : 0 <= K -> sround K 0 = 0.
Proof.
  intros HK. unfold sround. cbn [Z.ltb Z.compare]. rewrite round_0 by lia.
  apply Z.min_l. pose proof Top_pos. pose proof (pow2_pos K HK). nia.
Qed.

Lemma sround_mono K V1 V2 : 0 <= K -> V1 <= V2 -> sround K V1 <= sround K V2.
Proof.
  intros HK Hle. unfold sround.
  pose proof Top_pos as HT. pose proof (pow2_pos K HK) as HP.
  assert (HTK : 0 < Top * 2 ^ K) by nia.
  destruct (V1 <? 0) eqn:E1, (V2 <? 0) eqn:E2;
    rewrite ?Z.ltb_lt, ?Z.ltb_ge in *.
  - pose proof (round_mono K (- V2) (- V1) HK ltac:(lia)). lia.
  - pose proof (round_nonneg K (- V1) HK ltac:(lia)).
    pose proof (round_nonneg K V2 HK ltac:(lia)). lia.
  - lia.
  - pose proof (round_mono K V1 V2 HK ltac:(lia)). lia.
Qed.

Lemma sround_pos K s W :
  0 <= K -> 0 < W ->
  sround K (cond_Zopp s W) = cond_Zopp s (Z.min (round K W) (Top * 2 ^ K)).
Proof.
  intros HK HW. unfold sround. destruct s; cbn [cond_Zopp].
  - replace (- W <? 0) with true by (symmetry; apply Z.ltb_lt; lia).
    now rewrite Z.opp_involutive.
  - replace (W <? 0) with false by (symmetry; apply Z.ltb_ge; lia). reflexivity.
Qed.

Lemma cond_Zopp_mul s a b : cond_Zopp s a * b = cond_Zopp s (a * b).
Proof. destruct s; cbn [cond_Zopp]; lia. Qed.

(** A valid number is its own rounding. *)
Lemma round_valid (m : positive) (e : Z) :
  bounded prec emax m e = true ->
  round 0 (Zpos m * 2 ^ (e + 1074)) = Zpos m * 2 ^ (e + 1074).
Proof.
  intros H. destruct (bounded_inv m e H) as (He & _).
  unfold bounded, canonical_mantissa, fexp, SpecFloat.emin, prec, emax in H.
  apply andb_true_iff in H as [H _]. apply Z.eqb_eq in H.
  unfold round.
  assert (Hg : gexp 0 (Zpos m * 2 ^ (e + 1074)) = e + 1074).
  { unfold gexp. rewrite Z.log2_mul_pow2, digits2_log2 by lia. lia. }
  rewrite Hg. apply rne_exact; [apply pow2_pos; lia|].
  apply Z.mod_mul. apply Z.pow_nonzero; lia.
Qed.

Lemma sround_valid s (m : positive) (e : Z) :
  bounded prec emax m e = true ->
  sround 0 (cond_Zopp s (Zpos m * 2 ^ (e + 1074))) =
    cond_Zopp s (Zpos m * 2 ^ (e + 1074)).
Proof.
  intros H. pose proof (bounded_value m e H) as Hv.
  rewrite sround_pos, round_valid by (assumption || lia).
  rewrite Z.pow_0_r, Z.mul_1_r, Z.min_l by lia. reflexivity.
Qed.

Lemma signed_notnan s r : signed s r -> r <> S754_nan.
Proof. destruct r; cbn; congruence. Qed.

(** The product of two valid mantissas is aligned. *)
Lemma product_aligned (mx my : positive) (ex ey : Z) :
  bounded prec emax mx ex = true -> bounded prec emax my ey = true ->
  ex + ey <= fexp prec emax (Zpos (digits2_pos (mx * my)) + (ex + ey)).
Proof.
  intros Hx Hy.
  destruct (bounded_inv mx ex Hx) as (Hex & Hdx & Hnx).
  destruct (bounded_inv my ey Hy) as (Hey & Hdy & Hny).
  pose proof (digits2_pos_bounds mx) as [Hmx _].
  pose proof (digits2_pos_bounds my) as [Hmy _].
  pose proof (digits2_pos_bounds (mx * my)) as [_ Hm].
  assert (Hd : Zpos (digits2_pos mx) + Zpos (digits2_pos my) - 1 <= Zpos (digits2_pos (mx * my))).
  { assert (Hlt : 2 ^ (Zpos (digits2_pos mx) - 1 + (Zpos (digits2_pos my) - 1)) <
                  2 ^ Zpos (digits2_pos (mx * my))).
    { rewrite Z.pow_add_r by lia. rewrite Pos2Z.inj_mul in Hm.
      assert (0 < 2 ^ (Zpos (digits2_pos mx) - 1)) by (apply pow2_pos; lia).
      assert (0 < 2 ^ (Zpos (digits2_pos my) - 1)) by (apply pow2_pos; lia).
      nia. }
    apply Z.pow_lt_mono_r_iff in Hlt; lia. }
  unfold fexp, SpecFloat.emin, prec, emax. lia.
Qed.

(** The value of a product of finite numbers, in units of [2 ^ -2148]. *)
Lemma SFmul_value x s :
  SFfinite x -> SFfinite s ->
  SF64mul x s <> S754_nan /\
  val (SF64mul x s) * 2 ^ 1074 = sround 1074 (val x * val s).
Proof.
  unfold SF64mul.
  destruct x as [sx| | |sx mx ex], s as [ss| | |ss ms es]; try contradiction;
    cbn [SFfinite SFmul val]; intros Hx Hs.
  - split; [discriminate|]. now rewrite sround_0.
  - split; [discriminate|]. now rewrite sround_0.
  - split; [discriminate|]. now rewrite Z.mul_0_r, sround_0.
  - pose proof (binary_round_aux_signed (xorb sx ss) (Zpos (mx * ms)) (ex + es) loc_Exact
                  ltac:(lia)) as Hsg.
    split; [now apply signed_notnan in Hsg|].
    destruct (bounded_inv mx ex Hx) as (Hex & _).
    destruct (bounded_inv ms es Hs) as (Hes & _).
    pose proof (bounded_value mx ex Hx) as Hvx.
    pose proof (bounded_value ms es Hs) as Hvs.
    rewrite (val_signed _ _ Hsg), cond_Zopp_mul.
    rewrite (binary_round_aux_value _ _ _ 1074)
      by (try apply product_aligned; assumption || lia).
    replace (cond_Zopp sx (Zpos mx * 2 ^ (ex + 1074)) * cond_Zopp ss (Zpos ms * 2 ^ (es + 1074)))
      with (cond_Zopp (xorb sx ss) (Zpos (mx * ms) * 2 ^ (ex + es + 1074 + 1074))).
    + rewrite sround_pos; [reflexivity | lia |].
      apply Z.mul_pos_pos; [lia | apply pow2_pos; lia].
    + replace (ex + es + 1074 + 1074) with ((ex + 1074) + (es + 1074)) by lia.
      rewrite Z.pow_add_r, Pos2Z.inj_mul by lia.
      destruct sx, ss; cbn [xorb cond_Zopp]; ring.
Qed.

Lemma shl_align_exponent (m : positive) (e e' : Z) :
  snd (shl_align m e e') = Z.min e e'.
Proof.
  unfold shl_align. destruct (e' - e) as [|d|d] eqn:E; cbn [snd]; lia.
Qed.

(** Normalising a mantissa with its exponent rounds its value. *)
Lemma binary_round_value s (p : positive) (e : Z) :
  -1074 <= e ->
  signed s (binary_round prec emax s p e) /\
  absval (binary_round prec emax s p e) = Z.min (round 0 (Zpos p * 2 ^ (e + 1074))) Top.
Proof.
  intros He. unfold binary_round.
  assert (HF : fexp prec emax (Zpos (digits2_pos p) + e) =
               Z.max (Zpos (digits2_pos p) + e - 53) (-1074)) by reflexivity.
  set (F := fexp prec emax (Zpos (digits2_pos p) + e)) in *.
  pose proof (shl_align_value p e (Z.min e F) ltac:(lia)) as Hv.
  pose proof (shl_align_exponent p e F) as Hx.
  assert (Hsame : shl_align p e (Z.min e F) = shl_align p e F).
  { unfold shl_align. destruct (Z_le_gt_dec e F).
    - rewrite Z.min_l by lia. rewrite Z.sub_diag.
      destruct (F - e) eqn:E; [reflexivity|reflexivity|lia].
    - rewrite Z.min_r by lia. reflexivity. }
  rewrite Hsame in Hv.
  destruct (shl_align p e F) as [mz ez]. cbn [fst snd] in Hv, Hx. subst ez.
  split; [apply binary_round_aux_signed; lia|].
  pose proof (binary_round_aux_value s mz (Z.min e F) 0) as Hb.
  rewrite Z.pow_0_r, !Z.mul_1_r, Z.add_0_r in Hb. rewrite Hb; [|lia|lia|].
  - f_equal. f_equal. rewrite Hv, <- Z.mul_assoc, <- Z.pow_add_r by lia.
    f_equal. f_equal. lia.
  - assert (Hd : Zpos (digits2_pos mz) = Zpos (digits2_pos p) + (e - Z.min e F)).
    { pose proof (digits2_log2 mz) as H1. pose proof (digits2_log2 p) as H2.
      rewrite Hv, Z.log2_mul_pow2 in H1 by lia. lia. }
    rewrite Hd. unfold fexp, SpecFloat.emin, prec, emax. lia.
Qed.

Lemma binary_normalize_value (D e : Z) :
  -1074 <= e ->
  binary_normalize prec emax D e false <> S754_nan /\
  val (binary_normalize prec emax D e false) = sround 0 (D * 2 ^ (e + 1074)).
Proof.
  intros He. pose proof (pow2_pos (e + 1074) ltac:(lia)) as HP.
  destruct D as [|p|p]; cbn [binary_normalize].
  - split; [discriminate|]. now rewrite Z.mul_0_l, sround_0.
  - destruct (binary_round_value false p e He) as [Hsg Hv].
    split; [now apply signed_notnan in Hsg|].
    rewrite (val_signed _ _ Hsg), Hv.
    change (Zpos p * 2 ^ (e + 1074)) with (cond_Zopp false (Zpos p * 2 ^ (e + 1074))) at 2.
    rewrite sround_pos by lia. now rewrite Z.pow_0_r, Z.mul_1_r.
  - destruct (binary_round_value true p e He) as [Hsg Hv].
    split; [now apply signed_notnan in Hsg|].
    rewrite (val_signed _ _ Hsg), Hv.
    replace (Zneg p * 2 ^ (e + 1074)) with (cond_Zopp true (Zpos p * 2 ^ (e + 1074)))
      by (cbn [cond_Zopp]; lia).
    rewrite sround_pos by lia. now rewrite Z.pow_0_r, Z.mul_1_r.
Qed.

(** The value of a difference of finite numbers. *)
Lemma SFsub_value x m :
  SFfinite x -> SFfinite m ->
  SF64sub x m <> S754_nan /\
  val (SF64sub x m) = sround 0 (val x - val m).
Proof.
  unfold SF64sub.
  destruct x as [sx| | |sx mx ex], m as [sm| | |sm mm em]; try contradiction;
    cbn [SFfinite SFsub val]; intros Hx Hm.
  - split; [destruct sx, sm; discriminate|].
    rewrite Z.sub_0_r, sround_0 by lia. now destruct sx, sm.
  - split; [discriminate|]. cbn [val].
    replace (0 - cond_Zopp sm (Zpos mm * 2 ^ (em + 1074)))
      with (cond_Zopp (negb sm) (Zpos mm * 2 ^ (em + 1074)))
      by (destruct sm; cbn [negb cond_Zopp]; lia).
    now rewrite sround_valid.
  - split; [discriminate|]. cbn [val]. now rewrite Z.sub_0_r, sround_valid.
  - destruct (bounded_inv mx ex Hx) as (Hex & _).
    destruct (bounded_inv mm em Hm) as (Hem & _).
    set (ez := Z.min ex em).
    destruct (binary_normalize_value
                (cond_Zopp sx (Zpos (fst (shl_align mx ex ez))) -
                 cond_Zopp sm (Zpos (fst (shl_align mm em ez)))) ez ltac:(lia))
      as [Hn Hv].
    split; [exact Hn|]. rewrite Hv. f_equal.
    rewrite !shl_align_value by lia.
    rewrite Z.mul_sub_distr_r, !cond_Zopp_mul, <- !Z.mul_assoc, <- !Z.pow_add_r by lia.
    replace (ex - ez + (ez + 1074)) with (ex + 1074) by lia.
    replace (em - ez + (ez + 1074)) with (em + 1074) by lia.
    reflexivity.
Qed.

Lemma SFltb_val a b :
  valid_binary a = true -> valid_binary b = true ->
  a <> S754_nan -> b <> S754_nan ->
  SFltb a b = (val a <? val b).
Proof.
  intros Ha Hb Hna Hnb. unfold SFltb, Z.ltb.
  rewrite SFcompare_val by assumption. now destruct (val a ?= val b).
Qed.

Lemma sround_bounds K V : 0 <= K -> - (Top * 2 ^ K) <= sround K V <= Top * 2 ^ K.
Proof.
  intros HK. unfold sround.
  pose proof Top_pos as HT. pose proof (pow2_pos K HK) as HP.
  assert (HTK : 0 < Top * 2 ^ K) by nia.
  destruct (V <? 0) eqn:E; rewrite ?Z.ltb_lt, ?Z.ltb_ge in *.
  - pose proof (round_nonneg K (- V) HK ltac:(lia)). lia.
  - pose proof (round_nonneg K V HK ltac:(lia)). lia.
Qed.

Lemma SFfinite_val x : SFfinite x -> - Top < val x < Top.
Proof.
  pose proof Top_pos.
  destruct x as [s| | |s m e]; cbn [SFfinite val]; try contradiction; [lia|].
  intros Hb. pose proof (bounded_value m e Hb). destruct s; cbn [cond_Zopp]; lia.
Qed.

Lemma SFfinite_valid x : SFfinite x -> valid_binary x = true.
Proof. destruct x; cbn; try contradiction; auto. Qed.

(** A valid number is a NaN, an infinity, or finite. *)
Lemma valid_cases x :
  valid_binary x = true -> x <> S754_nan ->
  SFfinite x \/ exists s, x = S754_infinity s.
Proof.
  destruct x as [s|s| |s m e]; cbn; intros Hv Hn;
    [now left | right; now exists s | contradiction | now left].
Qed.

(** Multiplying by a finite number above zero keeps the order. *)
Lemma SFmul_mono x y s :
  valid_binary x = true -> valid_binary y = true ->
  x <> S754_nan -> y <> S754_nan ->
  SFfinite s -> 0 < val s ->
  val x <= val y ->
  SF64mul x s <> S754_nan /\ SF64mul y s <> S754_nan /\
  val (SF64mul x s) <= val (SF64mul y s).
Proof.
  intros Hvx Hvy Hnx Hny Hs Hpos Hle.
  pose proof Top_pos as HT.
  pose proof (pow2_pos 1074 ltac:(lia)) as HP.
  assert (Hfin : forall z, SFfinite z ->
            SF64mul z s <> S754_nan /\
            - Top <= val (SF64mul z s) <= Top /\
            val (SF64mul z s) * 2 ^ 1074 = sround 1074 (val z * val s)).
  { intros z Hz. destruct (SFmul_value z s Hz Hs) as [Hn Hv].
    split; [exact Hn|]. split; [|exact Hv].
    pose proof (sround_bounds 1074 (val z * val s) ltac:(lia)). nia. }
  assert (Hinf : forall sz, SF64mul (S754_infinity sz) s = S754_infinity sz).
  { intros sz. destruct s as [ss| | |ss ms es]; cbn [SFfinite val] in *; try contradiction; [lia|].
    destruct ss; cbn [cond_Zopp] in Hpos; [pose proof (bounded_value ms es Hs); lia|].
    unfold SF64mul. cbn [SFmul]. now rewrite xorb_false_r. }
  destruct (valid_cases x Hvx Hnx) as [Hx|[sx ->]],
           (valid_cases y Hvy Hny) as [Hy|[sy ->]].
  - destruct (Hfin x Hx) as (Hn1 & _ & Hv1), (Hfin y Hy) as (Hn2 & _ & Hv2).
    split; [exact Hn1|]. split; [exact Hn2|].
    pose proof (sround_mono 1074 (val x * val s) (val y * val s) ltac:(lia) ltac:(nia)).
    nia.
  - destruct (Hfin x Hx) as (Hn1 & Hb1 & _).
    pose proof (SFfinite_val x Hx). rewrite Hinf.
    split; [exact Hn1|]. split; [discriminate|].
    destruct sy; cbn [val cond_Zopp] in *; lia.
  - destruct (Hfin y Hy) as (Hn2 & Hb2 & _).
    pose proof (SFfinite_val y Hy). rewrite Hinf.
    split; [discriminate|]. split; [exact Hn2|].
    destruct sx; cbn [val cond_Zopp] in *; lia.
  - rewrite !Hinf. split; [discriminate|]. split; [discriminate|]. exact Hle.
Qed.

(** Subtracting a finite number from finite numbers keeps the order. *)
Lemma SFsub_mono x y m :
  SFfinite x -> SFfinite y -> SFfinite m ->
  val x <= val y ->
  val (SF64sub x m) <= val (SF64sub y m).
Proof.
  intros Hx Hy Hm Hle.
  destruct (SFsub_value x m Hx Hm) as [_ ->], (SFsub_value y m Hy Hm) as [_ ->].
  apply sround_mono; lia.
Qed.

End Rounding.

(** ** Binary64: from the primitives to their specification *)

Lemma Prim2SF_zero : Prim2SF 0%float = S754_zero false.
Proof. reflexivity. Qed.

Lemma Prim2SF_infinity : Prim2SF infinity = S754_infinity false.
Proof. reflexivity. Qed.

Lemma is_finite_spec x : is_finite x = true -> SFfinite (Prim2SF x).
Proof.
  unfold is_finite, is_infinity. intros H.
  apply negb_true_iff, orb_false_iff in H as [Hnan Hinf].
  apply is_nan_false in Hnan.
  rewrite FloatAxioms.eqb_spec, abs_spec, Prim2SF_infinity in Hinf.
  pose proof (Prim2SF_valid x) as Hv.
  destruct (Prim2SF x) as [s|s| |s m e]; cbn in *;
    [exact I | destruct s; discriminate | contradiction | exact Hv].
Qed.

Lemma leb_zero_spec d : (0 <=? d)%float = true <-> SFnonneg (Prim2SF d).
Proof.
  rewrite FloatAxioms.leb_spec, Prim2SF_zero. unfold SFleb.
  destruct (Prim2SF d) as [s|s| |s m e]; cbn; try destruct s; cbn;
    split; (discriminate || tauto || reflexivity || auto).
Qed.

Lemma is_zero_spec d : (d =? 0)%float = true <-> exists s, Prim2SF d = S754_zero s.
Proof.
  rewrite FloatAxioms.eqb_spec, Prim2SF_zero. unfold SFeqb.
  destruct (Prim2SF d) as [s|s| |s m e]; cbn; try destruct s; cbn; split;
    try discriminate; try (intros [? ?]; discriminate); eauto.
Qed.

(** The difference of a finite number and a finite number that is not
    above it is zero or above zero, and never NaN. *)
Lemma sub_nonneg x m :
  is_finite x = true -> is_finite m = true -> (m <=? x)%float = true ->
  (0 <=? x - m)%float = true.
Proof.
  intros Hx Hm Hle. apply leb_zero_spec. rewrite sub_spec.
  apply SFsub_nonneg; [now apply is_finite_spec..|].
  now rewrite <- FloatAxioms.leb_spec.
Qed.

(** A finite number minus itself is zero. *)
Lemma sub_diag x : is_finite x = true -> (x - x =? 0)%float = true.
Proof.
  intros Hx. apply is_zero_spec. rewrite sub_spec.
  apply SFsub_diag. now apply is_finite_spec.
Qed.

(** What is zero or above and not above a zero is a zero. *)
Lemma zero_between lo z :
  (0 <=? lo)%float = true -> (lo <=? z)%float = true -> (z =? 0)%float = true ->
  (lo =? 0)%float = true.
Proof.
  rewrite leb_zero_spec, FloatAxioms.leb_spec, !is_zero_spec.
  intros Hlo Hle [s Hz]. rewrite Hz in Hle. unfold SFleb in Hle.
  destruct (Prim2SF lo) as [s'|s'| |s' m e]; cbn in *;
    try destruct s'; try contradiction; try discriminate; eauto.
Qed.

Lemma nonneg_notnan d : (0 <=? d)%float = true -> is_nan d = false.
Proof. intros H. now apply leb_notnan in H. Qed.

Lemma is_finite_notnan x : is_finite x = true -> is_nan x = false.
Proof.
  unfold is_finite. intros H. now apply negb_true_iff, orb_false_iff in H as [H _].
Qed.

(** ** The height channel *)

(** Subtracting the lowest of finite numbers from each of them leaves
    numbers that are zero or above, the lowest of which is zero. *)
Lemma shifted_to_zero (l : list float) (m : float) :
  Forall (fun x => is_finite x = true) l ->
  Np.reduce Np.minimum l = Some m ->
  Forall (fun y => (0 <=? y)%float = true) (map (fun x => (x - m)%float) l) /\
  exists lo,
    Np.reduce Np.minimum (map (fun x => (x - m)%float) l) = Some lo /\
    (lo =? 0)%float = true.
Proof.
  intros Hfin Hm.
  assert (Hnn : no_nan l).
  { eapply Forall_impl; [exact Hfin|]. intros x. apply is_finite_notnan. }
  pose proof (reduce_In _ minimum_pick l m Hm) as Hin.
  assert (Hmfin : is_finite m = true).
  { rewrite List.Forall_forall in Hfin. now apply Hfin. }
  assert (Hout : Forall (fun y => (0 <=? y)%float = true) (map (fun x => (x - m)%float) l)).
  { apply List.Forall_forall. intros y Hy. apply in_map_iff in Hy as (x & <- & Hx).
    rewrite List.Forall_forall in Hfin.
    apply sub_nonneg; auto. now apply (reduce_minimum_bound l). }
  split; [exact Hout|].
  destruct (reduce_is_Some Np.minimum (map (fun x => (x - m)%float) l)) as [lo Hlo].
  { destruct l; [discriminate Hm | discriminate]. }
  exists lo. split; [exact Hlo|].
  assert (Hnn' : no_nan (map (fun x => (x - m)%float) l)).
  { eapply Forall_impl; [exact Hout|]. intros y. apply nonneg_notnan. }
  apply (zero_between lo (m - m)%float).
  - rewrite List.Forall_forall in Hout. apply Hout.
    now apply (reduce_In _ minimum_pick) in Hlo.
  - apply (reduce_minimum_bound _ _ _ Hnn' Hlo).
    now apply (in_map (fun x => (x - m)%float)).
  - now apply sub_diag.
Qed.

(** A NaN among the numbers is the result of the reduction. *)
Lemma minimum_nan_l a b : is_nan a = true -> Np.minimum a b = a.
Proof. intros H. unfold Np.minimum. now rewrite H, orb_true_r. Qed.

Lemma minimum_nan_r a b : is_nan a = false -> is_nan b = true -> Np.minimum a b = b.
Proof.
  intros Ha Hb. unfold Np.minimum. rewrite Ha, orb_false_r.
  destruct (a <=? b)%float eqn:E; [|reflexivity].
  apply leb_notnan in E. destruct E. congruence.
Qed.

Lemma maximum_nan_l a b : is_nan a = true -> Np.maximum a b = a.
Proof. intros H. unfold Np.maximum. now rewrite H, orb_true_r. Qed.

Lemma maximum_nan_r a b : is_nan a = false -> is_nan b = true -> Np.maximum a b = b.
Proof.
  intros Ha Hb. unfold Np.maximum. rewrite Ha, orb_false_r.
  destruct (b <=? a)%float eqn:E; [|reflexivity].
  apply leb_notnan in E. destruct E. congruence.
Qed.

Section Propagate.
Variable op : float -> float -> float.
Hypothesis op_nan_l : forall a b, is_nan a = true -> op a b = a.
Hypothesis op_nan_r : forall a b, is_nan a = false -> is_nan b = true -> op a b = b.

Lemma fold_op_nan (l : list float) x :
  (is_nan x = true \/ Exists (fun y => is_nan y = true) l) ->
  is_nan (fold_left op l x) = true.
Proof.
  revert x. induction l as [|y l IH]; intros x [Hx|Hl]; cbn [fold_left].
  - exact Hx.
  - inversion Hl.
  - apply IH. left. now rewrite op_nan_l.
  - apply IH. inversion Hl as [? ? Hy|? ? Hl']; subst; [left|now right].
    destruct (is_nan x) eqn:Hx; [now rewrite op_nan_l | now rewrite op_nan_r].
Qed.

Lemma reduce_nan (l : list float) m :
  Np.reduce op l = Some m -> Exists (fun y => is_nan y = true) l ->
  is_nan m = true.
Proof.
  destruct l as [|x l]; [discriminate|]. intros [= <-] H.
  apply fold_op_nan. inversion H; auto.
Qed.

End Propagate.

(** ** Binary64: the order of the values *)

Lemma leb_value x y :
  is_nan x = false -> is_nan y = false ->
  (x <=? y)%float = (value x <=? value y)%Z.
Proof.
  intros Hx Hy. rewrite FloatAxioms.leb_spec.
  apply SFleb_val; try apply Prim2SF_valid; now apply is_nan_false.
Qed.

Lemma eqb_value x y :
  is_nan x = false -> is_nan y = false ->
  (x =? y)%float = (value x =? value y)%Z.
Proof.
  intros Hx Hy. rewrite FloatAxioms.eqb_spec.
  apply SFeqb_val; try apply Prim2SF_valid; now apply is_nan_false.
Qed.

Lemma eqb_notnan x y :
  (x =? y)%float = true -> is_nan x = false /\ is_nan y = false.
Proof.
  rewrite FloatAxioms.eqb_spec, !is_nan_false. unfold SFeqb.
  destruct (Prim2SF x), (Prim2SF y); cbn; try discriminate; intros _; split; discriminate.
Qed.

Lemma ltb_zero_value s : (0 <? s)%float = true -> (0 < value s)%Z.
Proof.
  rewrite FloatAxioms.ltb_spec. intros H.
  assert (Hn : Prim2SF s <> S754_nan).
  { intros E. rewrite E in H. discriminate H. }
  rewrite SFltb_val in H by (try apply Prim2SF_valid; assumption || discriminate).
  now apply Z.ltb_lt in H.
Qed.

Lemma leb_antisym x y :
  (x <=? y)%float = true -> (y <=? x)%float = true -> (x =? y)%float = true.
Proof.
  intros H1 H2. destruct (leb_notnan x y H1) as [Hx Hy].
  rewrite leb_value in H1, H2 by assumption. rewrite eqb_value by assumption.
  apply Z.leb_le in H1, H2. apply Z.eqb_eq. lia.
Qed.

Lemma eqb_trans x y z :
  (x =? y)%float = true -> (y =? z)%float = true -> (x =? z)%float = true.
Proof.
  intros H1 H2. destruct (eqb_notnan x y H1) as [Hx Hy], (eqb_notnan y z H2) as [_ Hz].
  rewrite eqb_value in * by assumption. apply Z.eqb_eq in H1, H2. apply Z.eqb_eq. lia.
Qed.

(** ** Binary64: scaling and shifting keep the order *)

(** Multiplying by a finite factor above zero keeps the order of all
    numbers, the infinities included: rounding is monotone. *)
Lemma mul_mono x y s :
  is_nan x = false -> is_nan y = false ->
  is_finite s = true -> (0 <? s)%float = true ->
  (x <=? y)%float = true ->
  is_nan (x * s) = false /\ is_nan (y * s) = false /\
  (x * s <=? y * s)%float = true.
Proof.
  intros Hx Hy Hs Hpos Hle.
  rewrite leb_value in Hle by assumption. apply Z.leb_le in Hle.
  destruct (SFmul_mono (Prim2SF x) (Prim2SF y) (Prim2SF s)) as (Hn1 & Hn2 & Hv);
    try apply Prim2SF_valid; try (now apply is_nan_false);
    [now apply is_finite_spec | now apply ltb_zero_value | exact Hle |].
  rewrite <- !mul_spec in *. apply is_nan_false in Hn1, Hn2.
  split; [exact Hn1|]. split; [exact Hn2|].
  rewrite leb_value by assumption. now apply Z.leb_le.
Qed.

(** The difference of finite numbers is their exact difference, rounded. *)
Lemma sub_value x m :
  is_finite x = true -> is_finite m = true ->
  is_nan (x - m) = false /\ value (x - m) = sround 0 (value x - value m).
Proof.
  intros Hx Hm. unfold value. rewrite is_nan_false, sub_spec.
  apply SFsub_value; now apply is_finite_spec.
Qed.

(** Subtracting a finite number from finite numbers keeps their order. *)
Lemma sub_mono x y m :
  is_finite x = true -> is_finite y = true -> is_finite m = true ->
  (x <=? y)%float = true -> (x - m <=? y - m)%float = true.
Proof.
  intros Hx Hy Hm Hle.
  destruct (sub_value x m Hx Hm) as [Hn1 Hv1], (sub_value y m Hy Hm) as [Hn2 Hv2].
  rewrite leb_value in Hle by now apply is_finite_notnan.
  rewrite leb_value, Hv1, Hv2 by assumption.
  apply Z.leb_le in Hle. apply Z.leb_le. apply sround_mono; lia.
Qed.

(** Equal numbers have equal differences. *)
Lemma sub_eqb a b c d :
  is_finite a = true -> is_finite b = true ->
  is_finite c = true -> is_finite d = true ->
  (a =? b)%float = true -> (c =? d)%float = true ->
  (a - c =? b - d)%float = true.
Proof.
  intros Ha Hb Hc Hd Hab Hcd.
  destruct (sub_value a c Ha Hc) as [Hn1 Hv1], (sub_value b d Hb Hd) as [Hn2 Hv2].
  rewrite eqb_value in Hab, Hcd by now apply is_finite_notnan.
  apply Z.eqb_eq in Hab, Hcd.
  rewrite eqb_value, Hv1, Hv2, Hab, Hcd by assumption. apply Z.eqb_refl.
Qed.

(** ** The lowest and the highest sample under a monotone map *)

Section Monotone.
Variable f : float -> float.
Variable P : float -> Prop.
Hypothesis P_notnan : forall x, P x -> is_nan x = false.
Hypothesis f_notnan : forall x, P x -> is_nan (f x) = false.
Hypothesis f_mono :
  forall x y, P x -> P y -> (x <=? y)%float = true -> (f x <=? f y)%float = true.

Lemma map_no_nan (l : list float) : Forall P l -> no_nan l /\ no_nan (map f l).
Proof.
  intros HP. split.
  - eapply Forall_impl; [exact HP|]. exact P_notnan.
  - apply List.Forall_forall. intros y Hy. apply in_map_iff in Hy as (x & <- & Hx).
    rewrite List.Forall_forall in HP. auto.
Qed.

Lemma reduce_minimum_map (l : list float) lo lo' :
  Forall P l ->
  Np.reduce Np.minimum l = Some lo ->
  Np.reduce Np.minimum (map f l) = Some lo' ->
  (lo' =? f lo)%float = true.
Proof.
  intros HP Hlo Hlo'. destruct (map_no_nan l HP) as [Hnn Hnn'].
  pose proof (reduce_In _ minimum_pick _ _ Hlo) as Hin.
  pose proof (reduce_In _ minimum_pick _ _ Hlo') as Hin'.
  apply in_map_iff in Hin' as (x0 & <- & Hx0).
  rewrite List.Forall_forall in HP.
  apply leb_antisym.
  - apply (reduce_minimum_bound _ _ _ Hnn' Hlo'). now apply in_map.
  - apply f_mono; auto. now apply (reduce_minimum_bound l).
Qed.

Lemma reduce_maximum_map (l : list float) hi hi' :
  Forall P l ->
  Np.reduce Np.maximum l = Some hi ->
  Np.reduce Np.maximum (map f l) = Some hi' ->
  (hi' =? f hi)%float = true.
Proof.
  intros HP Hhi Hhi'. destruct (map_no_nan l HP) as [Hnn Hnn'].
  pose proof (reduce_In _ maximum_pick _ _ Hhi) as Hin.
  pose proof (reduce_In _ maximum_pick _ _ Hhi') as Hin'.
  apply in_map_iff in Hin' as (x0 & <- & Hx0).
  rewrite List.Forall_forall in HP.
  apply leb_antisym.
  - apply f_mono; auto. now apply (reduce_maximum_bound l).
  - apply (reduce_maximum_bound _ _ _ Hnn' Hhi'). now apply in_map.
Qed.

End Monotone.

(** ** The range of scaled samples *)

Lemma mul_finite_notnan x s : is_finite (x * s) = true -> is_nan x = false.
Proof.
  intros H. apply is_finite_notnan in H. apply is_nan_false in H.
  apply is_nan_false. intros E. apply H. rewrite mul_spec, E. reflexivity.
Qed.

(** The lowest and the highest of the scaled samples are the lowest and
    the highest sample, scaled. *)
Lemma scaled_range (l : list float) s lo hi lo' hi' :
  is_finite s = true -> (0 <? s)%float = true -> no_nan l ->
  Np.reduce Np.minimum l = Some lo ->
  Np.reduce Np.maximum l = Some hi ->
  Np.reduce Np.minimum (map (fun x => (x * s)%float) l) = Some lo' ->
  Np.reduce Np.maximum (map (fun x => (x * s)%float) l) = Some hi' ->
  (lo' =? lo * s)%float = true /\ (hi' =? hi * s)%float = true.
Proof.
  intros Hs Hpos Hnn Hlo Hhi Hlo' Hhi'.
  assert (Hnotnan : forall x, is_nan x = false -> is_nan (x * s) = false).
  { intros x Hx. now apply (mul_mono x x s Hx Hx Hs Hpos), leb_refl. }
  assert (Hmono : forall x y, is_nan x = false -> is_nan y = false ->
            (x <=? y)%float = true -> (x * s <=? y * s)%float = true).
  { intros x y Hx Hy Hle. now apply (mul_mono x y s Hx Hy Hs Hpos). }
  split.
  - exact (reduce_minimum_map (fun x => (x * s)%float) (fun x => is_nan x = false)
             (fun _ H => H) Hnotnan Hmono l lo lo' Hnn Hlo Hlo').
  - exact (reduce_maximum_map (fun x => (x * s)%float) (fun x => is_nan x = false)
             (fun _ H => H) Hnotnan Hmono l hi hi' Hnn Hhi Hhi').
Qed.

(** The highest of the shifted samples is the highest scaled sample minus
    the lowest scaled sample. *)
Lemma shifted_range (l : list float) s m top lo hi :
  is_finite s = true -> (0 <? s)%float = true ->
  Forall (fun x => is_finite (x * s) = true) l ->
  Np.reduce Np.minimum (map (fun x => (x * s)%float) l) = Some m ->
  Np.reduce Np.maximum
    (map (fun x => (x - m)%float) (map (fun x => (x * s)%float) l)) = Some top ->
  Np.reduce Np.minimum l = Some lo ->
  Np.reduce Np.maximum l = Some hi ->
  (m =? lo * s)%float = true /\ (top =? hi * s - lo * s)%float = true.
Proof.
  intros Hs Hpos Hfin Hm Htop Hlo Hhi.
  assert (Hnn : no_nan l).
  { eapply Forall_impl; [exact Hfin|]. intros x. apply mul_finite_notnan. }
  assert (Hfin' : Forall (fun y => is_finite y = true) (map (fun x => (x * s)%float) l)).
  { apply List.Forall_forall. intros y Hy. apply in_map_iff in Hy as (x & <- & Hx).
    rewrite List.Forall_forall in Hfin. auto. }
  destruct (reduce_is_Some Np.maximum (map (fun x => (x * s)%float) l)) as [hs Hhs].
  { destruct l; [discriminate Hlo | discriminate]. }
  destruct (scaled_range l s lo hi m hs Hs Hpos Hnn Hlo Hhi Hm Hhs) as [Hm_eq Hhs_eq].
  split; [exact Hm_eq|].
  pose proof (reduce_In _ minimum_pick _ _ Hm) as Hm_in.
  pose proof (reduce_In _ maximum_pick _ _ Hhs) as Hhs_in.
  pose proof (reduce_In _ minimum_pick _ _ Hlo) as Hlo_in.
  pose proof (reduce_In _ maximum_pick _ _ Hhi) as Hhi_in.
  rewrite List.Forall_forall in Hfin, Hfin'.
  assert (Hmfin : is_finite m = true) by auto.
  apply eqb_trans with (hs - m)%float.
  - apply (reduce_maximum_map (fun x => (x - m)%float) (fun x => is_finite x = true)
             is_finite_notnan) with (l := map (fun x => (x * s)%float) l).
    + intros x Hx. now apply sub_value.
    + intros x y Hx Hy. now apply sub_mono.
    + now apply List.Forall_forall.
    + exact Hhs.
    + exact Htop.
  - apply sub_eqb; auto.
Qed.

(** ** The other channels *)

(** C2, as amended.  For a channel of [params] other than 'ZSensor' the
    array that is drawn is the input array times the channel's scale
    factor, element by element and in binary64, each product rounded, and
    nothing is added or subtracted.  Its lowest and its highest sample are
    such products of input samples, and without NaN every sample of it lies
    between the two.  When no input sample is NaN, they are the products of
    the lowest and of the highest input sample: the ends of the range are
    the ends of the input range times the scale factor, each rounded once.
    The width of the range is the width of the input range times the scale
    factor only up to that rounding. *)
Theorem other_channels_are_scaled_only key p ch :
  params !! key = Some p ->
  key <> "ZSensor" ->
  scale_data key p ch = Ok (Np.mul_scalar (data ch) (datascale p)) /\
  forall lo' hi',
    Np.min (Np.mul_scalar (data ch) (datascale p)) = Some lo' ->
    Np.max (Np.mul_scalar (data ch) (datascale p)) = Some hi' ->
    (exists x, In x (Np.ravel (data ch)) /\ lo' = (x * datascale p)%float) /\
    (exists y, In y (Np.ravel (data ch)) /\ hi' = (y * datascale p)%float) /\
    (no_nan (Np.ravel (Np.mul_scalar (data ch) (datascale p))) ->
     forall z, In z (Np.ravel (Np.mul_scalar (data ch) (datascale p))) ->
               (lo' <=? z)%float = true /\ (z <=? hi')%float = true) /\
    (no_nan (Np.ravel (data ch)) ->
     forall lo hi,
       Np.min (data ch) = Some lo -> Np.max (data ch) = Some hi ->
       (lo' =? lo * datascale p)%float = true /\
       (hi' =? hi * datascale p)%float = true).
Proof.
  intros Hp Hkey. split; [now apply scale_data_not_height|].
  intros lo' hi' Hlo Hhi. unfold Np.min, Np.max in *.
  pose proof (reduce_In _ minimum_pick _ _ Hlo) as Hlo_in.
  pose proof (reduce_In _ maximum_pick _ _ Hhi) as Hhi_in.
  rewrite ravel_mul_scalar in Hlo_in, Hhi_in.
  apply in_map_iff in Hlo_in as (x & Hx & Hxin).
  apply in_map_iff in Hhi_in as (y & Hy & Hyin).
  split; [now exists x|]. split; [now exists y|]. split.
  - intros Hnn z Hz. split.
    + now apply (reduce_minimum_bound _ _ _ Hnn Hlo).
    + now apply (reduce_maximum_bound _ _ _ Hnn Hhi).
  - intros Hnn lo hi Hlo0 Hhi0.
    destruct (params_datascale_pos key p Hp) as [Hpos Hfin].
    rewrite ravel_mul_scalar in Hlo, Hhi.
    exact (scaled_range _ _ lo hi lo' hi' Hfin Hpos Hnn Hlo0 Hhi0 Hlo Hhi).
Qed.

Lemma other_channels_are_scaled_only_witness :
  scale_data "Peak Force Error" (ChannelParams "gray" 1e3 "Peak Force [mV]") force_map =
    Ok [[-2; 4]; [1; 3]]%float /\
  forall lo' hi',
    Np.min (Np.mul_scalar (data force_map) 1e3) = Some lo' ->
    Np.max (Np.mul_scalar (data force_map) 1e3) = Some hi' ->
    (exists x, In x (Np.ravel (data force_map)) /\ lo' = (x * 1e3)%float) /\
    (exists y, In y (Np.ravel (data force_map)) /\ hi' = (y * 1e3)%float) /\
    (no_nan (Np.ravel (Np.mul_scalar (data force_map) 1e3)) ->
     forall z, In z (Np.ravel (Np.mul_scalar (data force_map) 1e3)) ->
               (lo' <=? z)%float = true /\ (z <=? hi')%float = true) /\
    (no_nan (Np.ravel (data force_map)) ->
     forall lo hi,
       Np.min (data force_map) = Some lo -> Np.max (data force_map) = Some hi ->
       (lo' =? lo * 1e3)%float = true /\ (hi' =? hi * 1e3)%float = true).
Proof.
  exact (other_channels_are_scaled_only "Peak Force Error"
           (ChannelParams "gray" 1e3 "Peak Force [mV]") force_map
           eq_refl ltac:(discriminate)).
Defined.

(** C2, as the specification words it, fails: the samples 0.1 and 0.3
    scaled by 1e3 are 100 and 300, a range 200 wide, while the width of the
    input range times 1e3 is 199.99999999999997. *)
Lemma range_does_not_scale_exactly :
  ~ range_scales_exactly "Peak Force Error" tenths_map.
Proof.
  intros H.
  specialize (H (ChannelParams "gray" 1e3 "Peak Force [mV]")
                [[100; 300]]%float 0.1%float 0.3%float 100%float 300%float
                eq_refl eq_refl eq_refl eq_refl eq_refl eq_refl).
  apply Leibniz.eqb_spec in H. vm_compute in H. discriminate H.
Qed.

(** ** The height channel *)

(** C1, as amended.  For the channel 'ZSensor' the samples are first
    multiplied by the scale factor of the table and then the lowest of the
    scaled samples, [m], is subtracted from each, all in binary64.  When the
    scaled samples are finite, the lowest sample of the result is exactly
    zero, no sample of it is below zero or NaN, and the highest one bounds
    the others: the range of the result starts at zero.  It ends at the
    highest input sample times the factor minus the lowest input sample
    times the factor, each operation rounded once, and [m] is the lowest
    input sample times the factor.  Under every other name the scaled
    samples are returned as they are. *)
Theorem height_channel_starts_at_zero p ch :
  params !! "ZSensor" = Some p ->
  Np.ravel (data ch) <> [] ->
  Forall (fun x => is_finite (x * datascale p) = true) (Np.ravel (data ch)) ->
  (exists m out lo hi,
     Np.min (Np.mul_scalar (data ch) (datascale p)) = Some m /\
     In m (Np.ravel (Np.mul_scalar (data ch) (datascale p))) /\
     scale_data "ZSensor" p ch = Ok out /\
     out = Np.sub_scalar (Np.mul_scalar (data ch) (datascale p)) m /\
     Np.min out = Some lo /\ (lo =? 0)%float = true /\
     Np.max out = Some hi /\ In hi (Np.ravel out) /\
     (forall y, In y (Np.ravel out) ->
                (0 <=? y)%float = true /\ (y <=? hi)%float = true) /\
     (forall lo_in hi_in,
        Np.min (data ch) = Some lo_in -> Np.max (data ch) = Some hi_in ->
        (m =? lo_in * datascale p)%float = true /\
        (hi =? hi_in * datascale p - lo_in * datascale p)%float = true)) /\
  (forall key q c,
     key <> "ZSensor" ->
     scale_data key q c = Ok (Np.mul_scalar (data c) (datascale q))).
Proof.
  intros Hp Hne Hfin. split; [|intros key q c; apply scale_data_not_height].
  set (scaled := Np.mul_scalar (data ch) (datascale p)).
  assert (Hrav : Np.ravel scaled = map (fun x => (x * datascale p)%float) (Np.ravel (data ch)))
    by apply ravel_mul_scalar.
  assert (Hfin' : Forall (fun x => is_finite x = true) (Np.ravel scaled)).
  { rewrite Hrav. apply List.Forall_forall. intros y Hy.
    apply in_map_iff in Hy as (x & <- & Hx).
    rewrite List.Forall_forall in Hfin. now apply Hfin. }
  destruct (reduce_is_Some Np.minimum (Np.ravel scaled)) as [m Hm].
  { rewrite Hrav. now apply map_not_nil. }
  destruct (shifted_to_zero _ m Hfin' Hm) as (Hout & lo & Hlo & Hzero).
  set (out := Np.sub_scalar scaled m).
  assert (Hrav' : Np.ravel out = map (fun x => (x - m)%float) (Np.ravel scaled))
    by apply ravel_map.
  rewrite <- Hrav' in Hout, Hlo.
  destruct (reduce_is_Some Np.maximum (Np.ravel out)) as [hi Hhi].
  { rewrite Hrav', Hrav. now apply map_not_nil, map_not_nil. }
  assert (Hnn : no_nan (Np.ravel out)).
  { eapply Forall_impl; [exact Hout|]. intros y. apply nonneg_notnan. }
  exists m, out, lo, hi.
  split; [exact Hm|]. split; [now apply (reduce_In _ minimum_pick) in Hm|].
  split.
  { unfold scale_data. cbn [String.eqb Ascii.eqb Bool.eqb].
    fold scaled. unfold Np.min. now rewrite Hm. }
  split; [reflexivity|]. split; [exact Hlo|]. split; [exact Hzero|].
  split; [exact Hhi|]. split; [now apply (reduce_In _ maximum_pick) in Hhi|].
  split.
  - intros y Hy. split.
    + rewrite List.Forall_forall in Hout. now apply Hout.
    + now apply (reduce_maximum_bound _ _ _ Hnn Hhi).
  - intros lo_in hi_in Hlo_in Hhi_in.
    destruct (params_datascale_pos "ZSensor" p Hp) as [Hpos Hsfin].
    rewrite Hrav in Hm. rewrite Hrav', Hrav in Hhi.
    exact (shifted_range _ _ m hi lo_in hi_in Hsfin Hpos Hfin Hm Hhi Hlo_in Hhi_in).
Qed.

Lemma height_channel_starts_at_zero_witness :
  exists m out lo hi,
    Np.min (Np.mul_scalar (data height_map) 1e9) = Some m /\
    In m (Np.ravel (Np.mul_scalar (data height_map) 1e9)) /\
    scale_data "ZSensor" (ChannelParams "afmhot" 1e9 "Height [nm]") height_map = Ok out /\
    out = Np.sub_scalar (Np.mul_scalar (data height_map) 1e9) m /\
    Np.min out = Some lo /\ (lo =? 0)%float = true /\
    Np.max out = Some hi /\ In hi (Np.ravel out) /\
    (forall y, In y (Np.ravel out) ->
               (0 <=? y)%float = true /\ (y <=? hi)%float = true) /\
    (forall lo_in hi_in,
       Np.min (data height_map) = Some lo_in -> Np.max (data height_map) = Some hi_in ->
       (m =? lo_in * 1e9)%float = true /\
       (hi =? hi_in * 1e9 - lo_in * 1e9)%float = true).
Proof.
  refine (proj1 (height_channel_starts_at_zero
                   (ChannelParams "afmhot" 1e9 "Height [nm]") height_map
                   eq_refl _ _)).
  - discriminate.
  - repeat constructor.
Defined.

(** C1, as the specification words it, fails: the samples 1e300 and 2e300
    both scale to infinity, and infinity minus infinity is NaN, so the
    lowest processed sample is NaN and not zero. *)
Lemma overflow_minimum_is_not_zero : ~ height_minimum_is_zero overflow_map.
Proof.
  intros H.
  specialize (H (ChannelParams "afmhot" 1e9 "Height [nm]")
                [[nan; nan]]%float nan eq_refl eq_refl eq_refl).
  vm_compute in H. discriminate H.
Qed.

(** The height channel of [scans_env]: the samples 3, 1, 2 and 5 nm become
    2, 0, 1 and 4. *)
Example height_map_scaled :
  scale_data "ZSensor" (ChannelParams "afmhot" 1e9 "Height [nm]") height_map =
    Ok [[2; 0]; [1; 4]]%float.
Proof. reflexivity. Qed.

(** ** Strings and paths *)

Lemma chars_app a b : Py.chars (a +:+ b) = Py.chars a ++ Py.chars b.
Proof. induction a as [|c a IH]; cbn; [reflexivity | now rewrite <- IH]. Qed.

Lemma chars_inj a b : Py.chars a = Py.chars b -> a = b.
Proof.
  intros H. rewrite <- (string_of_list_ascii_of_string a),
    <- (string_of_list_ascii_of_string b). unfold Py.chars in H. now rewrite H.
Qed.

Lemma chars_str l : Py.chars (Py.str l) = l.
Proof. apply list_ascii_of_string_of_list_ascii. Qed.

Lemma str_chars s : Py.str (Py.chars s) = s.
Proof. apply string_of_list_ascii_of_string. Qed.

Lemma endswith_spec s suffix :
  Py.endswith s suffix = true ->
  exists pre, Py.chars s = pre ++ Py.chars suffix.
Proof.
  unfold Py.endswith. intros H. apply andb_true_iff in H as [_ H].
  apply bool_decide_eq_true in H.
  exists (take (length (Py.chars s) - length (Py.chars suffix)) (Py.chars s)).
  rewrite <- H at 2. now rewrite take_drop.
Qed.

Lemma endswith_app pre suffix : Py.endswith (pre +:+ suffix) suffix = true.
Proof.
  unfold Py.endswith. rewrite chars_app, length_app. apply andb_true_iff. split.
  - apply Nat.leb_le. lia.
  - apply bool_decide_eq_true.
    replace (length (Py.chars pre) + length (Py.chars suffix) -
             length (Py.chars suffix))%nat with (length (Py.chars pre)) by lia.
    apply drop_app_length.
Qed.

Lemma rfind_from_absent i l c found :
  ~ In c l -> Py.rfind_from i l c found = found.
Proof.
  revert i found. induction l as [|x l IH]; intros i found Hn; [reflexivity|].
  cbn. destruct (Ascii.eqb_spec x c) as [->|_].
  - exfalso. apply Hn. now left.
  - apply IH. intros H. apply Hn. now right.
Qed.

Lemma rfind_from_last i pre post c found :
  ~ In c post ->
  Py.rfind_from i (pre ++ c :: post) c found = (i + Z.of_nat (length pre))%Z.
Proof.
  intros Hn. revert i found. induction pre as [|x pre IH]; intros i found.
  - cbn. rewrite Ascii.eqb_refl, rfind_from_absent by exact Hn. lia.
  - cbn [app Py.rfind_from length]. rewrite IH. lia.
Qed.

(** [splitext] on a directory entry that ends in '.gwy'. *)
Lemma splitext_gwy f pre :
  Py.chars f = pre ++ Py.chars ".gwy" ->
  ~ In "/"%char (Py.chars f) ->
  Py.splitext f =
  if forallb Py.is_dot pre then (f, EmptyString) else (Py.str pre, ".gwy"%string).
Proof.
  intros Hf Hsep. unfold Py.splitext, Py.rfind.
  rewrite (rfind_from_absent _ _ "/"%char) by exact Hsep.
  rewrite Hf. change (Py.chars ".gwy") with ("."%char :: Py.chars "gwy").
  rewrite rfind_from_last.
  2:{ cbn. intros [H|[H|[H|[]]]]; discriminate. }
  change (0 + Z.of_nat (length pre))%Z with (Z.of_nat (length pre)).
  replace (-1 <? Z.of_nat (length pre))%Z with true by (symmetry; apply Z.ltb_lt; lia).
  unfold Py.slice. rewrite Nat2Z.id. change (Z.to_nat (-1 + 1)) with 0%nat.
  rewrite take_app_length, drop_app_length, drop_0.
  destruct (forallb Py.is_dot pre); reflexivity.
Qed.

Lemma hidden_gwy_pre f pre :
  Py.chars f = pre ++ Py.chars ".gwy" -> hidden_gwy f = forallb Py.is_dot pre.
Proof.
  intros Hf. unfold hidden_gwy. cbv zeta. rewrite Hf, length_app. cbn [Py.chars
    list_ascii_of_string length].
  replace (length pre + 4 - 4)%nat with (length pre) by lia.
  now rewrite take_app_length.
Qed.

(** The base name: the name itself for a hidden name, the name without
    '.gwy' otherwise. *)
Lemma base_gwy f pre :
  Py.chars f = pre ++ Py.chars ".gwy" ->
  ~ In "/"%char (Py.chars f) ->
  Py.chars (fst (Py.splitext f)) = if hidden_gwy f then Py.chars f else pre.
Proof.
  intros Hf Hsep. rewrite (splitext_gwy f pre Hf Hsep), (hidden_gwy_pre f pre Hf).
  destruct (forallb Py.is_dot pre); cbn [fst]; [reflexivity | apply chars_str].
Qed.

Lemma base_eq_iff f1 f2 :
  Py.endswith f1 ".gwy" = true -> Py.endswith f2 ".gwy" = true ->
  ~ In "/"%char (Py.chars f1) -> ~ In "/"%char (Py.chars f2) ->
  fst (Py.splitext f1) = fst (Py.splitext f2) <->
  f1 = f2 \/
  (hidden_gwy f1 = true /\ f2 = f1 +:+ ".gwy") \/
  (hidden_gwy f2 = true /\ f1 = f2 +:+ ".gwy").
Proof.
  intros He1 He2 Hs1 Hs2.
  destruct (endswith_spec _ _ He1) as [pre1 Hf1].
  destruct (endswith_spec _ _ He2) as [pre2 Hf2].
  assert (Hlong : forall f g pre,
    Py.chars f = pre ++ Py.chars ".gwy" -> ~ In "/"%char (Py.chars g) ->
    g = f +:+ ".gwy" -> Py.chars (fst (Py.splitext g)) = Py.chars f).
  { intros f g pre Hf Hs ->.
    rewrite (base_gwy _ (Py.chars f) (chars_app f ".gwy") Hs).
    rewrite (hidden_gwy_pre _ (Py.chars f) (chars_app f ".gwy")).
    rewrite Hf, forallb_app, andb_comm. reflexivity. }
  split.
  - intros H. apply (f_equal Py.chars) in H.
    rewrite (base_gwy f1 pre1 Hf1 Hs1), (base_gwy f2 pre2 Hf2 Hs2) in H.
    destruct (hidden_gwy f1) eqn:H1, (hidden_gwy f2) eqn:H2.
    + left. now apply chars_inj.
    + right; left. split; [reflexivity|]. apply chars_inj.
      now rewrite chars_app, Hf2, H.
    + right; right. split; [reflexivity|]. apply chars_inj.
      now rewrite chars_app, Hf1, H.
    + left. apply chars_inj. now rewrite Hf1, Hf2, H.
  - intros [->|[[H1 ->]|[H2 ->]]]; [reflexivity| |]; apply chars_inj.
    + rewrite (Hlong f1 _ pre1 Hf1 Hs2 eq_refl).
      now rewrite (base_gwy f1 pre1 Hf1 Hs1), H1.
    + rewrite (Hlong f2 _ pre2 Hf2 Hs1 eq_refl).
      now rewrite (base_gwy f2 pre2 Hf2 Hs2), H2.
Qed.

Lemma rev_chars_inj a b : rev (Py.chars a) = rev (Py.chars b) -> a = b.
Proof.
  intros H. apply chars_inj. apply (f_equal (@rev ascii)) in H.
  now rewrite !rev_involutive in H.
Qed.

(** Base and channel name can be read back from the file name of an
    image: no channel name of [params] is the tail of another after a
    dot. *)
Lemma output_name_parts b1 k1 b2 k2 :
  is_Some (params !! k1) -> is_Some (params !! k2) ->
  b1 +:+ "." +:+ k1 +:+ ".png" = b2 +:+ "." +:+ k2 +:+ ".png" ->
  b1 = b2 /\ k1 = k2.
Proof.
  intros [p1 H1] [p2 H2] H.
  apply (f_equal Py.chars) in H. rewrite !chars_app in H.
  apply (f_equal (@rev ascii)) in H. rewrite !rev_app_distr in H.
  destruct (params_lookup_inv k1 p1 H1) as [[-> _]|[[-> _]|[-> _]]];
  destruct (params_lookup_inv k2 p2 H2) as [[-> _]|[[-> _]|[-> _]]];
    cbn in H; try discriminate H;
    injection H as H; apply rev_chars_inj in H; auto.
Qed.

Lemma startswith_sep_false s rest :
  ~ In "/"%char (Py.chars s) ->
  Py.startswith_char (s +:+ "." +:+ rest) "/" = false.
Proof.
  destruct s as [|c s]; intros Hn; [reflexivity|].
  change (Ascii.eqb c "/" = false).
  destruct (Ascii.eqb_spec c "/") as [->|_]; [|reflexivity].
  exfalso. apply Hn. now left.
Qed.

Lemma path_join_inj folder a b :
  Py.startswith_char a "/" = false -> Py.startswith_char b "/" = false ->
  Py.path_join folder a = Py.path_join folder b -> a = b.
Proof.
  intros Ha Hb. unfold Py.path_join. rewrite Ha, Hb.
  destruct ((folder =? "")%string || Py.endswith folder "/"); intros H.
  - now apply (inj (String.app folder)) in H.
  - apply (inj (String.app folder)) in H. now apply (inj (String.app "/")) in H.
Qed.

Lemma base_no_sep f :
  Py.endswith f ".gwy" = true -> ~ In "/"%char (Py.chars f) ->
  ~ In "/"%char (Py.chars (fst (Py.splitext f))).
Proof.
  intros He Hs. destruct (endswith_spec _ _ He) as [pre Hf].
  rewrite (base_gwy f pre Hf Hs). destruct (hidden_gwy f); [exact Hs|].
  intros H. apply Hs. rewrite Hf. apply in_or_app. now left.
Qed.

Lemma endswith_char_app x y c :
  y <> EmptyString ->
  Py.endswith (x +:+ y) (String c EmptyString) = Py.endswith y (String c EmptyString).
Proof.
  intros Hy. unfold Py.endswith. rewrite chars_app, length_app.
  assert (Hlen : (1 <= length (Py.chars y))%nat).
  { destruct y; [contradiction | cbn; lia]. }
  cbn [Py.chars list_ascii_of_string length].
  rewrite drop_app_ge by lia.
  replace (length (Py.chars x) + length (Py.chars y) - 1 - length (Py.chars x))%nat
    with (length (Py.chars y) - 1)%nat by lia.
  f_equal. destruct (1 <=? length (Py.chars y))%nat eqn:E1.
  - apply Nat.leb_le. lia.
  - apply Nat.leb_gt in E1. lia.
Qed.

(** The output folder is the working directory's 'processed_images', and a
    name put under it follows a slash. *)
Lemma output_folder_join cwd name :
  Py.startswith_char name "/" = false ->
  Py.path_join (Py.path_join cwd "processed_images") name =
  Py.path_join cwd "processed_images" +:+ "/" +:+ name.
Proof.
  intros Hn. unfold Py.path_join at 1. rewrite Hn.
  assert (Hend : Py.endswith (Py.path_join cwd "processed_images") "/" = false).
  { unfold Py.path_join. cbn [Py.startswith_char Ascii.eqb Bool.eqb].
    destruct ((cwd =? "")%string || Py.endswith cwd "/").
    - now rewrite endswith_char_app.
    - rewrite endswith_char_app by discriminate. now rewrite endswith_char_app. }
  assert (Hne : (Py.path_join cwd "processed_images" =? "")%string = false).
  { apply String.eqb_neq. intros H. apply (f_equal Py.chars) in H.
    unfold Py.path_join in H. cbn [Py.startswith_char Ascii.eqb Bool.eqb] in H.
    destruct ((cwd =? "")%string || Py.endswith cwd "/");
      rewrite !chars_app in H; apply (f_equal (@length ascii)) in H;
      rewrite !length_app in H; cbn in H; lia. }
  now rewrite Hend, Hne.
Qed.

(** C5, as amended.  The path of an image is the output folder, a slash,
    and the base name of the file, a dot, the channel name and '.png'.  Two
    pairs of a discovered file and a channel of [params] get the same path
    exactly when the channel names are equal and the files have the same
    base name; for different files that happens only when one name is dots
    followed by 'gwy', which [splitext] leaves whole, and the other is that
    name followed by '.gwy'. *)
Theorem output_paths_collide_only_on_hidden_names cwd f1 k1 f2 k2 :
  Py.endswith f1 ".gwy" = true -> Py.endswith f2 ".gwy" = true ->
  ~ In "/"%char (Py.chars f1) -> ~ In "/"%char (Py.chars f2) ->
  is_Some (params !! k1) -> is_Some (params !! k2) ->
  let folder := Py.path_join cwd "processed_images" in
  output_path folder f1 k1 =
    folder +:+ "/" +:+ fst (Py.splitext f1) +:+ "." +:+ k1 +:+ ".png" /\
  (output_path folder f1 k1 = output_path folder f2 k2 <->
   k1 = k2 /\
   (f1 = f2 \/
    (hidden_gwy f1 = true /\ f2 = f1 +:+ ".gwy") \/
    (hidden_gwy f2 = true /\ f1 = f2 +:+ ".gwy"))).
Proof.
  intros He1 He2 Hs1 Hs2 Hk1 Hk2 folder.
  pose proof (startswith_sep_false _ (k1 +:+ ".png") (base_no_sep f1 He1 Hs1)) as Hn1.
  pose proof (startswith_sep_false _ (k2 +:+ ".png") (base_no_sep f2 He2 Hs2)) as Hn2.
  split; [now apply output_folder_join|].
  rewrite <- (base_eq_iff f1 f2 He1 He2 Hs1 Hs2). unfold output_path, output_name.
  split.
  - intros H. apply path_join_inj in H; [|assumption..].
    apply output_name_parts in H as [Hb Hk]; auto.
  - intros [-> ->]. reflexivity.
Qed.

Lemma output_paths_collide_only_on_hidden_names_witness :
  output_path "/home/u/scans/processed_images" "a.gwy" "ZSensor" =
    "/home/u/scans/processed_images/a.ZSensor.png" /\
  (output_path "/home/u/scans/processed_images" "a.gwy" "ZSensor" =
   output_path "/home/u/scans/processed_images" "b.gwy" "ZSensor" <->
   "ZSensor" = "ZSensor" /\
   ("a.gwy" = "b.gwy" \/
    (hidden_gwy "a.gwy" = true /\ "b.gwy" = "a.gwy.gwy") \/
    (hidden_gwy "b.gwy" = true /\ "a.gwy" = "b.gwy.gwy"))).
Proof.
  apply (output_paths_collide_only_on_hidden_names "/home/u/scans"
           "a.gwy" "ZSensor" "b.gwy" "ZSensor"); try reflexivity.
  - cbn. intros [H|[H|[H|[H|[H|[]]]]]]; discriminate.
  - cbn. intros [H|[H|[H|[H|[H|[]]]]]]; discriminate.
  - eexists; reflexivity.
  - eexists; reflexivity.
Defined.

(** C5, as the specification words it, fails: the hidden scans '.gwy' and
    '.gwy.gwy' share the base name '.gwy', and their height images share a
    path. *)
Lemma hidden_names_collide :
  ~ no_collisions "/home/u/scans/processed_images" (gwy_files hidden_env).
Proof.
  intros H.
  apply (H ".gwy" "ZSensor" ".gwy.gwy" "ZSensor")%string.
  - now left.
  - right. now left.
  - eexists; reflexivity.
  - eexists; reflexivity.
  - discriminate.
  - reflexivity.
Qed.

(** The run of [hidden_env] writes the same path twice. *)
Example hidden_env_run :
  fst (process_gwy_files hidden_env init) = Ok tt /\
  saved_paths (trace (snd (process_gwy_files hidden_env init))) =
    ["/home/u/scans/processed_images/.gwy.ZSensor.png";
     "/home/u/scans/processed_images/.gwy.ZSensor.png"].
Proof. vm_compute. split; reflexivity. Qed.

(** * Further properties *)

(** ** Discovery of the scan files *)

Lemma append_empty_r s : s +:+ EmptyString = s.
Proof.
  induction s as [|c s IH]; [reflexivity|].
  change (String c (s +:+ EmptyString) = String c s). now rewrite IH.
Qed.

Lemma endswith_iff s suffix :
  Py.endswith s suffix = true <-> exists pre, s = pre +:+ suffix.
Proof.
  split.
  - intros H. destruct (endswith_spec _ _ H) as [pre Hpre].
    exists (Py.str pre). apply chars_inj. now rewrite chars_app, chars_str.
  - intros [pre ->]. apply endswith_app.
Qed.

Lemma filter_sublist {X} (f : X -> bool) (l : list X) :
  List.filter f l `sublist_of` l.
Proof.
  induction l as [|x l IH]; cbn; [constructor|].
  destruct (f x); now constructor.
Qed.

Lemma count_occ_filter (f : string -> bool) (l : list string) (x : string) :
  count_occ string_dec (List.filter f l) x =
  if f x then count_occ string_dec l x else 0%nat.
Proof.
  induction l as [|y l IH]; cbn [List.filter count_occ]; [now destruct (f x)|].
  destruct (f y) eqn:Hy; cbn [count_occ]; destruct (string_dec y x) as [->|Hne];
    rewrite IH; try rewrite Hy; try reflexivity.
Qed.

(** X1.  The files the run works on are the names of the listing of the
    form [pre + ".gwy"], in the order of the listing; such a name is worked
    on as often as it is listed, and names with another ending (or another
    case, such as '.GWY') are left alone. *)
Theorem discovered_files e :
  (forall f, In f (gwy_files e) <->
             In f (listdir e) /\ exists pre, f = pre +:+ ".gwy") /\
  gwy_files e `sublist_of` listdir e /\
  (forall f, count_occ string_dec (gwy_files e) f =
             if Py.endswith f ".gwy" then count_occ string_dec (listdir e) f
             else 0%nat).
Proof.
  split; [|split].
  - intros f. unfold gwy_files. rewrite filter_In, endswith_iff. reflexivity.
  - apply filter_sublist.
  - intros f. apply (count_occ_filter (fun g => Py.endswith g ".gwy")).
Qed.

(** ** Base name and extension *)

Lemma last_occurrence (c : ascii) (l : list ascii) :
  In c l -> exists pre post, l = pre ++ c :: post /\ ~ In c post.
Proof.
  induction l as [|x l IH]; [contradiction|].
  intros Hin. destruct (in_dec ascii_dec c l) as [Hl|Hl].
  - destruct (IH Hl) as (pre & post & -> & Hpost).
    now exists (x :: pre), post.
  - destruct Hin as [->|Hin]; [|contradiction].
    now exists [], l.
Qed.

(** What follows a later cut of a list is part of what follows an earlier
    one. *)
Lemma later_tail {X} (l pre pre' post post' : list X) (c d x : X) :
  l = pre ++ c :: post -> l = pre' ++ d :: post' ->
  (length pre' < length pre)%nat ->
  In x post -> In x post'.
Proof.
  intros Hl Hl' Hlt Hin.
  assert (Hpost : post = drop (S (length pre)) l).
  { rewrite Hl, cons_middle, app_assoc.
    rewrite drop_app_length'; [reflexivity|]. rewrite length_app. cbn. lia. }
  assert (Hpost' : post' = drop (S (length pre')) l).
  { rewrite Hl', cons_middle, app_assoc.
    rewrite drop_app_length'; [reflexivity|]. rewrite length_app. cbn. lia. }
  apply list_elem_of_In.
  apply (subseteq_drop (length pre - length pre') post').
  rewrite Hpost', drop_drop.
  replace (S (length pre') + (length pre - length pre'))%nat
    with (S (length pre)) by lia.
  rewrite <- Hpost. now apply list_elem_of_In.
Qed.

(** [rfind]: -1 when the character is absent, else the index after which
    it does not occur again. *)
Lemma rfind_spec s c :
  (~ In c (Py.chars s) /\ Py.rfind s c = (-1)%Z) \/
  (exists pre post,
     Py.chars s = pre ++ c :: post /\ ~ In c post /\
     Py.rfind s c = Z.of_nat (length pre)).
Proof.
  unfold Py.rfind. destruct (in_dec ascii_dec c (Py.chars s)) as [Hin|Hn].
  - right. destruct (last_occurrence c _ Hin) as (pre & post & Hl & Hpost).
    exists pre, post. rewrite Hl. repeat split; auto.
    now rewrite rfind_from_last.
  - left. split; [exact Hn|]. now apply rfind_from_absent.
Qed.

(** X2.  [splitext] cuts a path in two without losing a character: root
    and extension put together give the path back.  The extension is
    empty, or it is a dot followed by characters among which there is
    neither a dot nor a slash. *)
Theorem splitext_root_ext p :
  fst (Py.splitext p) +:+ snd (Py.splitext p) = p /\
  (snd (Py.splitext p) = EmptyString \/
   exists rest,
     snd (Py.splitext p) = "." +:+ rest /\
     ~ In "."%char (Py.chars rest) /\ ~ In "/"%char (Py.chars rest)).
Proof.
  unfold Py.splitext.
  destruct (rfind_spec p ".") as [[_ Hdot]|(pre & post & Hp & Hpost & Hdot)];
    rewrite Hdot.
  { assert (Hlt : (Py.rfind p "/" <? -1)%Z = false).
    { apply Z.ltb_ge.
      destruct (rfind_spec p "/") as [[_ ->]|(? & ? & _ & _ & ->)]; lia. }
    rewrite Hlt. cbn [fst snd]. split; [apply append_empty_r | now left]. }
  destruct (Py.rfind p "/" <? Z.of_nat (length pre))%Z eqn:Hlt;
    [|cbn [fst snd]; split; [apply append_empty_r | now left]].
  destruct (forallb Py.is_dot _);
    [cbn [fst snd]; split; [apply append_empty_r | now left]|].
  cbn [fst snd]. rewrite Nat2Z.id. split.
  - apply chars_inj. now rewrite chars_app, !chars_str, take_drop.
  - right. exists (Py.str post).
    rewrite Hp, drop_app_length, chars_str. split; [reflexivity|].
    split; [exact Hpost|].
    intros Hsep. apply Z.ltb_lt in Hlt.
    destruct (rfind_spec p "/") as [[Hn _]|(pre' & post' & Hp' & Hpost' & Hs)].
    + apply Hn. rewrite Hp. apply in_or_app. right. now right.
    + rewrite Hs in Hlt. apply Nat2Z.inj_lt in Hlt.
      apply Hpost'. now apply (later_tail _ _ _ _ _ _ _ _ Hp Hp' Hlt).
Qed.

(** X3.  The name of an image is the name of the scan with '.gwy' replaced
    by '.<channel>.png', as long as something other than dots precedes
    '.gwy'; after dots only, '.gwy' stays in the name. *)
Theorem output_name_of_scan pre key :
  ~ In "/"%char (Py.chars pre) ->
  output_name (pre +:+ ".gwy") key =
  (if forallb Py.is_dot (Py.chars pre) then pre +:+ ".gwy" else pre)
  +:+ "." +:+ key +:+ ".png".
Proof.
  intros Hsep. unfold output_name.
  rewrite (splitext_gwy (pre +:+ ".gwy") (Py.chars pre) (chars_app pre ".gwy")).
  - destruct (forallb Py.is_dot (Py.chars pre)); cbn [fst];
      [reflexivity | now rewrite str_chars].
  - rewrite chars_app. intros H. apply in_app_or in H as [H|H]; [auto|].
    cbn in H. destruct H as [H|[H|[H|[H|[]]]]]; discriminate.
Qed.

Lemma output_name_of_scan_witness :
  output_name "scan.0001.gwy" "Potential" = "scan.0001.Potential.png" /\
  output_name "..gwy" "Potential" = "..gwy.Potential.png".
Proof.
  split.
  - apply (output_name_of_scan "scan.0001" "Potential").
    cbn. intros [H|[H|[H|[H|[H|[H|[H|[H|[H|[]]]]]]]]]]; discriminate.
  - apply (output_name_of_scan "." "Potential").
    cbn. intros [H|[]]; discriminate.
Defined.

(** ** Zero-size arrays *)

Lemma map_nil_inv {X Y} (f : X -> Y) (l : list X) : map f l = [] -> l = [].
Proof. destruct l; [reflexivity | discriminate]. Qed.

(** X4.  Scaling raises in one case only: the key is 'ZSensor' and the
    array has no sample, where [data.min()] raises ValueError.  The body of
    the channel loop then ends before a figure is opened, leaving the state
    as it was.  For every other key, and for every array with a sample, the
    scaling returns an array. *)
Theorem scale_data_raises_iff :
  (forall key p ch err,
     scale_data key p ch = Raise err <->
     key = "ZSensor" /\ Np.ravel (data ch) = [] /\ err = Np.zero_size "minimum") /\
  (forall e folder file ch st,
     Np.ravel (data ch) = [] ->
     process_channel e folder file ("ZSensor", ch) st =
       (Raise (Np.zero_size "minimum"), st)).
Proof.
  assert (Hmin : forall p ch,
    Np.ravel (data ch) = [] -> Np.min (Np.mul_scalar (data ch) (datascale p)) = None).
  { intros p ch H. unfold Np.min. now rewrite ravel_mul_scalar, H. }
  split.
  - intros key p ch err. unfold scale_data.
    destruct (String.eqb_spec key "ZSensor") as [->|Hk].
    + destruct (Np.min _) as [m|] eqn:Hm.
      * split; [discriminate|]. intros (_ & H & _). rewrite (Hmin p ch H) in Hm.
        discriminate.
      * split.
        -- intros [= <-]. repeat split.
           apply reduce_None in Hm. rewrite ravel_mul_scalar in Hm.
           now apply map_nil_inv in Hm.
        -- now intros (_ & _ & ->).
    + split; [discriminate|]. now intros [? _].
  - intros e folder file ch st H.
    pose proof (process_channel_cases e folder file "ZSensor" ch st) as Hc.
    cbv zeta in Hc.
    destruct (params !! "ZSensor") as [p|] eqn:Hp; [|discriminate Hp].
    unfold scale_data in Hc. cbn [String.eqb Ascii.eqb Bool.eqb] in Hc.
    now rewrite (Hmin p ch H) in Hc.
Qed.

(** ** The labels of the colorbar *)

(** X5.  On an array with at least one sample [add_cbar] succeeds and adds
    one colorbar, leaving the image, the artists and the number of the
    figure as they were.  The two numbers it writes are samples of the
    array.  Without NaN in the array every sample lies between them; with a
    NaN in the array both are NaN. *)
Theorem add_cbar_labels fig d lbl :
  Np.ravel d <> [] ->
  exists lo hi fig',
    add_cbar fig d lbl = Ok fig' /\
    fig_colorbars fig' =
      fig_colorbars fig ++
      [Colorbar 0.5 12 0.03 false
         [ Text 0.5 (0 - 0.07) (FormatG 3 lo) 0;
           Text 0.5 (1 + 0.07) (FormatG 3 hi) 0;
           Text 2.25 0.5 (Literal lbl) (-90) ]] /\
    In lo (Np.ravel d) /\ In hi (Np.ravel d) /\
    (no_nan (Np.ravel d) ->
     forall x, In x (Np.ravel d) ->
               (lo <=? x)%float = true /\ (x <=? hi)%float = true) /\
    (Exists (fun x => is_nan x = true) (Np.ravel d) ->
     is_nan lo = true /\ is_nan hi = true) /\
    ax_images fig' = ax_images fig /\ ax_artists fig' = ax_artists fig /\
    fig_num fig' = fig_num fig.
Proof.
  intros Hne.
  destruct (reduce_is_Some Np.minimum _ Hne) as [lo Hlo].
  destruct (reduce_is_Some Np.maximum _ Hne) as [hi Hhi].
  exists lo, hi. eexists. unfold add_cbar, Np.min, Np.max. rewrite Hlo, Hhi.
  split; [reflexivity|]. split; [reflexivity|].
  split; [now apply (reduce_In _ minimum_pick) in Hlo|].
  split; [now apply (reduce_In _ maximum_pick) in Hhi|].
  split; [|split; [|repeat split]].
  - intros Hnn x Hx. split.
    + now apply (reduce_minimum_bound _ _ _ Hnn Hlo).
    + now apply (reduce_maximum_bound _ _ _ Hnn Hhi).
  - intros Hnan. split.
    + now apply (reduce_nan _ minimum_nan_l minimum_nan_r _ _ Hlo).
    + now apply (reduce_nan _ maximum_nan_l maximum_nan_r _ _ Hhi).
Qed.

Lemma add_cbar_labels_witness :
  exists lo hi fig',
    add_cbar (Figure 1 "constrained" false [] [] []) (data force_map) "Peak Force [mV]"
      = Ok fig' /\
    fig_colorbars fig' =
      [] ++
      [Colorbar 0.5 12 0.03 false
         [ Text 0.5 (0 - 0.07) (FormatG 3 lo) 0;
           Text 0.5 (1 + 0.07) (FormatG 3 hi) 0;
           Text 2.25 0.5 (Literal "Peak Force [mV]") (-90) ]] /\
    In lo (Np.ravel (data force_map)) /\ In hi (Np.ravel (data force_map)) /\
    (no_nan (Np.ravel (data force_map)) ->
     forall x, In x (Np.ravel (data force_map)) ->
               (lo <=? x)%float = true /\ (x <=? hi)%float = true) /\
    (Exists (fun x => is_nan x = true) (Np.ravel (data force_map)) ->
     is_nan lo = true /\ is_nan hi = true) /\
    ax_images fig' = [] /\ ax_artists fig' = [] /\ fig_num fig' = 1%nat.
Proof.
  apply (add_cbar_labels (Figure 1 "constrained" false [] [] []) (data force_map)
           "Peak Force [mV]").
  discriminate.
Defined.

(** ** The events of a run *)

Section Trace.
Context {A : Type} (P : A -> event -> Prop) (body : A -> M unit).

(** A loop whose body appends events that belong to its element appends
    events that belong to the elements of the list. *)
Lemma for_each_trace :
  (forall x st, exists d,
      trace (snd (body x st)) = trace st ++ d /\ Forall (P x) d) ->
  forall xs st, exists d,
      trace (snd (for_each xs body st)) = trace st ++ d /\
      Forall (fun ev => exists x, In x xs /\ P x ev) d.
Proof.
  intros Hb xs. induction xs as [|x xs IH]; intros st.
  - exists []. cbn. rewrite app_nil_r. split; [reflexivity | constructor].
  - destruct (Hb x st) as (d1 & Hd1 & HP1).
    assert (HP1' : Forall (fun ev => exists y, In y (x :: xs) /\ P y ev) d1).
    { eapply Forall_impl; [exact HP1|]. intros ev H. exists x. split; [now left | exact H]. }
    cbn [for_each]. unfold bind.
    destruct (body x st) as [[[]|err] st1]; cbn [snd] in *.
    + destruct (IH st1) as (d2 & Hd2 & HP2).
      exists (d1 ++ d2). rewrite Hd2, Hd1, app_assoc. split; [reflexivity|].
      apply Forall_app. split; [exact HP1'|].
      eapply Forall_impl; [exact HP2|]. intros ev (y & Hy & H).
      exists y. split; [now right | exact H].
    + exists d1. auto.
Qed.

End Trace.

Lemma process_channel_trace e folder file item st :
  exists d,
    trace (snd (process_channel e folder file item st)) = trace st ++ d /\
    Forall (channel_event folder file item) d.
Proof.
  destruct item as [key ch].
  pose proof (process_channel_cases e folder file key ch st) as Hc.
  cbv zeta in Hc.
  assert (Hsame : forall r st',
    trace st' = trace st ->
    process_channel e folder file (key, ch) st = (r, st') ->
    exists d,
      trace (snd (process_channel e folder file (key, ch) st)) = trace st ++ d /\
      Forall (channel_event folder file (key, ch)) d).
  { intros r st' Ht ->. exists []. cbn [snd]. rewrite Ht, app_nil_r.
    split; [reflexivity | constructor]. }
  destruct (params !! key) as [p|] eqn:Hp; [|eapply Hsame; [|exact Hc]; reflexivity].
  destruct (scale_data key p ch) as [d|err] eqn:Hd;
    [|eapply Hsame; [|exact Hc]; reflexivity].
  destruct (Np.min d) as [lo|] eqn:Hlo; [|eapply Hsame; [|exact Hc]; reflexivity].
  destruct (Np.max d) as [hi|] eqn:Hhi; [|eapply Hsame; [|exact Hc]; reflexivity].
  destruct (savefig_error e (output_path folder file key));
    [eapply Hsame; [|exact Hc]; reflexivity|].
  rewrite Hc. cbn [snd trace]. eexists. split; [reflexivity|].
  constructor; [|constructor].
  exists p, d, lo, hi, (next_num (open_figs st)). cbn [fst snd]. auto.
Qed.

Lemma process_file_trace e folder file st :
  exists d,
    trace (snd (process_file e folder file st)) = trace st ++ d /\
    Forall (file_event e folder file) d.
Proof.
  unfold process_file.
  destruct (get_datafields_load e file) as [chs|err] eqn:Hload.
  - destruct (for_each_trace (channel_event folder file)
                (process_channel e folder file)
                (fun x st' => process_channel_trace e folder file x st') chs st)
      as (d & Hd & HP).
    exists d. split; [exact Hd|].
    eapply Forall_impl; [exact HP|]. intros ev (item & Hin & Hev).
    right. unfold file_event. rewrite Hload. now exists chs, item.
  - exists [Printed (load_error_line file err)]. split; [reflexivity|].
    constructor; [|constructor]. left. unfold file_event. rewrite Hload.
    now exists err.
Qed.

(** X7.  The events of a run, whatever the folder holds.  Without scan
    files the trace is the one message.  Otherwise the output directory is
    created first and once, or the run ends there without any event when
    the directory cannot be created; every later event belongs to one of
    the discovered files: it is the line for its load error, or the image
    of one of its channels named in [params], drawn from the scaled samples
    of that channel with the colormap and the label of that channel's
    entry and saved under the path of that pair. *)
Theorem run_events e :
  let folder := Py.path_join (getcwd e) "processed_images" in
  let t := trace (snd (process_gwy_files e init)) in
  (gwy_files e = [] /\ t = [Printed "No .gwy files found in the folder."]) \/
  (gwy_files e <> [] /\ makedirs_error e folder <> None /\ t = []) \/
  (gwy_files e <> [] /\ makedirs_error e folder = None /\
   exists d,
     t = MadeDirs folder :: d /\
     Forall (fun ev => exists file,
                 In file (gwy_files e) /\ file_event e folder file ev) d).
Proof.
  intros folder t. subst t. unfold process_gwy_files. fold folder.
  destruct (gwy_files e) as [|f0 fs] eqn:E; [now left | right].
  rewrite makedirs_then.
  destruct (makedirs_error e folder) as [err|]; [left | right].
  { repeat split; discriminate. }
  split; [discriminate|]. split; [reflexivity|].
  destruct (for_each_trace (file_event e folder) (process_file e folder)
              (fun x st => process_file_trace e folder x st)
              (f0 :: fs) (State [MadeDirs folder] []))
    as (d & Hd & HP).
  exists d. split; [exact Hd | exact HP].
Qed.

(** X8.  When the output directory cannot be created the run ends with
    that error before any file is loaded: nothing is printed, no figure is
    opened, no image is saved, and the exit status is 1. *)
Theorem makedirs_failure_is_fatal e err :
  gwy_files e <> [] ->
  makedirs_error e (Py.path_join (getcwd e) "processed_images") = Some err ->
  process_gwy_files e init = (Raise err, init) /\
  exit_code (fst (process_gwy_files e init)) = 1%Z.
Proof.
  intros Hfiles Hmk. unfold process_gwy_files.
  destruct (gwy_files e) as [|f0 fs]; [contradiction|].
  rewrite makedirs_then, Hmk. split; reflexivity.
Qed.

Lemma makedirs_failure_is_fatal_witness :
  process_gwy_files read_only_env init =
    (Raise (Exn "PermissionError" "[Errno 13] Permission denied"), init) /\
  exit_code (fst (process_gwy_files read_only_env init)) = 1%Z.
Proof.
  apply (makedirs_failure_is_fatal read_only_env); [discriminate | reflexivity].
Defined.

(** ** The lines a run prints *)

Lemma printed_app t1 t2 : printed (t1 ++ t2) = printed t1 ++ printed t2.
Proof. apply omap_app. Qed.

Lemma channel_events_silent folder file item d :
  Forall (channel_event folder file item) d -> printed d = [].
Proof.
  induction 1 as [|ev d (p & a & lo & hi & n & _ & _ & _ & _ & ->) _ IH];
    [reflexivity | exact IH].
Qed.

Lemma process_channel_printed e folder file item st :
  printed (trace (snd (process_channel e folder file item st))) = printed (trace st).
Proof.
  destruct (process_channel_trace e folder file item st) as (d & -> & Hd).
  now rewrite printed_app, (channel_events_silent _ _ _ _ Hd), app_nil_r.
Qed.

Lemma process_file_printed e folder file st :
  exists l,
    printed (trace (snd (process_file e folder file st))) = printed (trace st) ++ l /\
    l `prefix_of` load_error_lines e [file] /\
    (fst (process_file e folder file st) = Ok tt -> l = load_error_lines e [file]).
Proof.
  unfold process_file, load_error_lines. cbn [flat_map]. rewrite app_nil_r.
  destruct (get_datafields_load e file) as [chs|err].
  - exists []. rewrite app_nil_r. split; [|split; [apply prefix_nil | reflexivity]].
    apply (for_each_invariant
             (fun st' => printed (trace st') = printed (trace st)));
      [|reflexivity].
    intros x st' H. now rewrite process_channel_printed.
  - exists [load_error_line file err]. cbn [snd fst print emit trace].
    rewrite printed_app. auto.
Qed.

Lemma load_error_lines_flat e files :
  flat_map (fun file => load_error_lines e [file]) files = load_error_lines e files.
Proof.
  induction files as [|f fs IH]; [reflexivity|].
  change (load_error_lines e [f] ++
          flat_map (fun file => load_error_lines e [file]) fs =
          load_error_lines e ([f] ++ fs)).
  rewrite IH. unfold load_error_lines. now rewrite flat_map_app.
Qed.

(** X9.  With scan files in the folder, the lines a run prints are the
    lines "Error loading <file>: <cause>" of the files that fail to load,
    one per such file and in the order of the listing: all of them when the
    run returns normally, the first ones when an error ends it.  Nothing
    else is ever printed. *)
Theorem printed_lines e :
  gwy_files e <> [] ->
  printed (trace (snd (process_gwy_files e init)))
    `prefix_of` load_error_lines e (gwy_files e) /\
  (fst (process_gwy_files e init) = Ok tt ->
   printed (trace (snd (process_gwy_files e init))) =
   load_error_lines e (gwy_files e)).
Proof.
  intros Hfiles. unfold process_gwy_files.
  destruct (gwy_files e) as [|f0 fs]; [contradiction|].
  rewrite makedirs_then. destruct (makedirs_error e _) as [err|].
  { cbn. split; [apply prefix_nil | discriminate]. }
  rewrite <- load_error_lines_flat.
  destruct (for_each_emits (fun st => printed (trace st))
              (fun file => load_error_lines e [file])
              (process_file e (Py.path_join (getcwd e) "processed_images"))
              (fun x st => process_file_printed e _ x st)
              (f0 :: fs) (State [MadeDirs (Py.path_join (getcwd e) "processed_images")] []))
    as (l & Hl & Hpre & Hok).
  change (printed (trace (State [MadeDirs (Py.path_join (getcwd e) "processed_images")] [])))
    with (@nil string) in Hl.
  rewrite app_nil_l in Hl. rewrite Hl. split; [exact Hpre | exact Hok].
Qed.

Lemma printed_lines_witness :
  printed (trace (snd (process_gwy_files scans_env init)))
    `prefix_of` ["Error loading bad.gwy: unexpected end of file"] /\
  (fst (process_gwy_files scans_env init) = Ok tt ->
   printed (trace (snd (process_gwy_files scans_env init))) =
   ["Error loading bad.gwy: unexpected end of file"]).
Proof.
  apply (printed_lines scans_env). discriminate.
Defined.

(** ** Files that fail to load, channels that are skipped *)

Lemma framed_shift {A} (c : M A) t t' o :
  framed c ->
  fst (c (State t o)) = fst (c (State t' o)) /\
  open_figs (snd (c (State t o))) = open_figs (snd (c (State t' o))) /\
  exists d,
    trace (snd (c (State t o))) = t ++ d /\
    trace (snd (c (State t' o))) = t' ++ d.
Proof.
  intros Hc. rewrite (Hc t o), (Hc t' o). cbn [fst snd trace open_figs].
  repeat split. now eexists.
Qed.

Lemma unprinted_app t1 t2 : unprinted (t1 ++ t2) = unprinted t1 ++ unprinted t2.
Proof. apply List.filter_app. Qed.

Lemma loads_false e file :
  loads e file = false -> exists err, get_datafields_load e file = Raise err.
Proof.
  unfold loads. destruct (get_datafields_load e file) as [chs|err];
    [discriminate | now exists err].
Qed.

(** X10.  Files that fail to load change nothing but the printed lines: a
    batch and the same batch without those files end with the same result,
    leave the same figures open, and make the same events apart from the
    printed lines: the same images under the same paths, in the same
    order. *)
Theorem failed_loads_only_print e folder files st :
  let run := for_each files (process_file e folder) st in
  let run' := for_each (List.filter (loads e) files) (process_file e folder) st in
  fst run = fst run' /\
  open_figs (snd run) = open_figs (snd run') /\
  unprinted (trace (snd run)) = unprinted (trace (snd run')).
Proof.
  cbv zeta. revert st. induction files as [|f fs IH]; intros st; [auto|].
  cbn [List.filter]. destruct (loads e f) eqn:Hf.
  - cbn [for_each]. unfold bind.
    destruct (process_file e folder f st) as [[[]|err] st1]; [apply IH | auto].
  - destruct (loads_false e f Hf) as [err Herr].
    rewrite (for_each_cons_ok _ _ _ _ _ (process_file_load_error e folder f err st Herr)).
    destruct (IH st) as (Hr & Ho & Ht). rewrite <- Hr, <- Ho, <- Ht.
    destruct st as [t o]. cbn [trace open_figs].
    destruct (framed_shift (for_each fs (process_file e folder))
                (t ++ [Printed (load_error_line f err)]) t o (framed_files e folder fs))
      as (Hr' & Ho' & d & Hd & Hd').
    rewrite Hr', Ho', Hd, Hd', !unprinted_app. cbn. now rewrite app_nil_r.
Qed.

(** X11.  Channels that [params] does not name can be taken out of a dict
    without any change to what the loop over the dict does: same result,
    same state. *)
Theorem skipped_channels_do_nothing e folder file chs st :
  for_each chs (process_channel e folder file) st =
  for_each (recognized chs) (process_channel e folder file) st.
Proof.
  revert st. unfold recognized. induction chs as [|[key ch] chs IH]; intros st;
    [reflexivity|].
  cbn [List.filter fst]. destruct (params !! key) as [p|] eqn:Hp.
  - cbn [for_each]. unfold bind.
    destruct (process_channel e folder file (key, ch) st) as [[[]|err] st1];
      [apply IH | reflexivity].
  - rewrite (for_each_cons_ok _ _ _ _ _
               (process_channel_unrecognized e folder file key ch st Hp)).
    apply IH.
Qed.

(** ** Which figure an image is drawn on *)

Section Outcome.
Context {A : Type} (P Q : state -> Prop) (body : A -> M unit).

(** [P] holds as long as the loop goes on and [Q] where it raises. *)
Lemma for_each_outcome :
  (forall x st, P st ->
     match body x st with
     | (Ok _, st') => P st'
     | (Raise _, st') => Q st'
     end) ->
  forall xs st, P st ->
     match for_each xs body st with
     | (Ok _, st') => P st'
     | (Raise _, st') => Q st'
     end.
Proof.
  intros Hb xs. induction xs as [|x xs IH]; intros st Hst; [exact Hst|].
  cbn [for_each]. unfold bind. specialize (Hb x st Hst).
  destruct (body x st) as [[[]|err] st1]; [now apply IH | exact Hb].
Qed.

End Outcome.

Lemma saved_nums_snoc t path fig dpi bb :
  saved_nums (t ++ [SavedFig path fig dpi bb]) = saved_nums t ++ [fig_num fig].
Proof. unfold saved_nums. now rewrite saved_figs_snoc, map_app. Qed.

Lemma process_channel_outcome e folder file item st :
  saved_nums (trace st) = open_figs st ->
  match process_channel e folder file item st with
  | (Ok _, st') => saved_nums (trace st') = open_figs st'
  | (Raise _, st') =>
      open_figs st' = saved_nums (trace st') \/
      open_figs st' = saved_nums (trace st') ++ [next_num (saved_nums (trace st'))]
  end.
Proof.
  destruct item as [key ch]. intros Hst.
  pose proof (process_channel_cases e folder file key ch st) as Hc.
  cbv zeta in Hc.
  destruct (params !! key) as [p|]; [|now rewrite Hc].
  destruct (scale_data key p ch) as [d|err]; [|rewrite Hc; now left].
  destruct (Np.min d) as [lo|];
    [|rewrite Hc; right; cbn [trace open_figs]; now rewrite Hst].
  destruct (Np.max d) as [hi|];
    [|rewrite Hc; right; cbn [trace open_figs]; now rewrite Hst].
  destruct (savefig_error e (output_path folder file key)); rewrite Hc.
  - right. cbn [trace open_figs]. now rewrite Hst.
  - cbn [trace open_figs]. now rewrite saved_nums_snoc, Hst.
Qed.

Lemma process_file_outcome e folder file st :
  saved_nums (trace st) = open_figs st ->
  match process_file e folder file st with
  | (Ok _, st') => saved_nums (trace st') = open_figs st'
  | (Raise _, st') =>
      open_figs st' = saved_nums (trace st') \/
      open_figs st' = saved_nums (trace st') ++ [next_num (saved_nums (trace st'))]
  end.
Proof.
  intros Hst. unfold process_file.
  destruct (get_datafields_load e file) as [chs|err].
  - apply (for_each_outcome (fun st' => saved_nums (trace st') = open_figs st'));
      [|exact Hst].
    intros x st'. apply process_channel_outcome.
  - cbn [print emit trace open_figs]. now rewrite saved_nums_other.
Qed.

Lemma run_outcome e :
  match process_gwy_files e init with
  | (Ok _, st') => saved_nums (trace st') = open_figs st'
  | (Raise _, st') =>
      open_figs st' = saved_nums (trace st') \/
      open_figs st' = saved_nums (trace st') ++ [next_num (saved_nums (trace st'))]
  end.
Proof.
  unfold process_gwy_files. destruct (gwy_files e) as [|f0 fs]; [reflexivity|].
  rewrite makedirs_then. destruct (makedirs_error e _); [now left|].
  apply (for_each_outcome (fun st' => saved_nums (trace st') = open_figs st'));
    [|reflexivity].
  intros x st'. apply process_file_outcome.
Qed.

(** X12.  Images and figures go together.  The figures of the images
    saved are the first figures pyplot opened, in the same order, and at
    most one figure is open beyond them: the one that was being drawn when
    an error ended the run.  After a normal return there is none: the i-th
    image was drawn on figure number i, and as many figures are left open
    as images were saved. *)
Theorem images_and_figures e :
  let r := process_gwy_files e init in
  saved_nums (trace (snd r)) `prefix_of` open_figs (snd r) /\
  (length (open_figs (snd r)) <= S (length (saved_paths (trace (snd r)))))%nat /\
  (fst r = Ok tt ->
   saved_nums (trace (snd r)) = seq 1 (length (saved_paths (trace (snd r)))) /\
   open_figs (snd r) = seq 1 (length (saved_paths (trace (snd r))))).
Proof.
  cbv zeta. pose proof (run_outcome e) as H.
  destruct (run_figs_inv e) as (n & Hn & _).
  assert (Hlen : forall t, length (saved_paths t) = length (saved_nums t)).
  { intros t. unfold saved_nums, saved_paths, saved_figs. rewrite length_map.
    induction t as [|[| |] t IH]; cbn; auto. }
  destruct (process_gwy_files e init) as [[[]|err] st]; cbn [fst snd] in *.
  - rewrite Hlen, H. split; [reflexivity|]. split; [lia|]. intros _.
    rewrite Hn, length_seq. auto.
  - rewrite Hlen. destruct H as [H|H]; rewrite H.
    + split; [reflexivity|]. split; [lia | discriminate].
    + split; [now apply prefix_app_r|]. rewrite length_app. cbn.
      split; [lia | discriminate].
Qed.

(** ** Where the images go *)

Lemma params_key_no_sep key :
  is_Some (params !! key) -> ~ In "/"%char (Py.chars key).
Proof.
  intros [p Hp].
  destruct (params_lookup_inv key p Hp) as [[-> _]|[[-> _]|[-> _]]];
    cbn; intuition discriminate.
Qed.

Lemma output_name_no_sep file key :
  Py.endswith file ".gwy" = true -> ~ In "/"%char (Py.chars file) ->
  is_Some (params !! key) ->
  ~ In "/"%char (Py.chars (output_name file key)).
Proof.
  intros He Hs Hk. unfold output_name. rewrite !chars_app.
  intros H. apply in_app_or in H as [H|H]; [now apply (base_no_sep file He Hs)|].
  apply in_app_or in H as [H|H]; [cbn in H; intuition discriminate|].
  apply in_app_or in H as [H|H]; [now apply (params_key_no_sep key Hk)|].
  cbn in H. intuition discriminate.
Qed.

(** X13.  A run writes nowhere but directly inside the output folder.  When
    no name of the listing holds a slash, every path under which an image
    is saved is the folder 'processed_images' of the working directory, one
    slash, and a file name without slash that ends in '.png'. *)
Theorem images_stay_in_output_folder e path :
  (forall f, In f (listdir e) -> ~ In "/"%char (Py.chars f)) ->
  In path (saved_paths (trace (snd (process_gwy_files e init)))) ->
  exists name,
    path = Py.path_join (getcwd e) "processed_images" +:+ "/" +:+ name /\
    ~ In "/"%char (Py.chars name) /\
    Py.endswith name ".png" = true.
Proof.
  intros Hlist Hin.
  destruct (run_paths e) as [[k Hk] _]. cbv zeta in Hk.
  assert (Hin' : In path
    (map (fun fk => output_path (Py.path_join (getcwd e) "processed_images")
                                (fst fk) (snd fk)) (recognized_pairs e))).
  { rewrite Hk. apply in_or_app. now left. }
  apply in_map_iff in Hin' as ([file key] & <- & Hpair). cbn [fst snd].
  destruct (recognized_pairs_In e file key Hpair) as (Hfile & Hkey & _).
  unfold gwy_files in Hfile. apply filter_In in Hfile as [Hl He].
  pose proof (Hlist file Hl) as Hs.
  exists (output_name file key). split; [|split].
  - unfold output_path. apply output_folder_join. unfold output_name.
    apply startswith_sep_false. now apply base_no_sep.
  - now apply output_name_no_sep.
  - unfold output_name.
    change (fst (Py.splitext file) +:+ "." +:+ key +:+ ".png")
      with (fst (Py.splitext file) +:+ ("." +:+ (key +:+ ".png"))).
    destruct (endswith_iff (fst (Py.splitext file) +:+ "." +:+ key +:+ ".png") ".png")
      as [_ H]. apply H.
    exists (fst (Py.splitext file) +:+ "." +:+ key).
    apply chars_inj. rewrite !chars_app. now rewrite <- !app_assoc.
Qed.

Lemma images_stay_in_output_folder_witness :
  exists name,
    "/home/u/scans/processed_images/good.ZSensor.png" =
      Py.path_join (getcwd scans_env) "processed_images" +:+ "/" +:+ name /\
    ~ In "/"%char (Py.chars name) /\
    Py.endswith name ".png" = true.
Proof.
  apply (images_stay_in_output_folder scans_env
           "/home/u/scans/processed_images/good.ZSensor.png").
  - intros f [<-|[<-|[<-|[]]]]; cbn; intuition discriminate.
  - vm_compute. now left.
Defined.
